(** * PersistentBuffer: a pool of recycled heap buffers

    Shallow embedding of [PersistentBuffer.cpp] / [PersistentBuffer.h].

    The repository carries two listings of [PersistentBuffer.cpp].  They agree
    on everything except the two release functions: the listing with the
    [PERSISTENTBUFFER_TRACKING] instrumentation guards every release with
    [buffer.get() && buffer->m_in_use]; the listing without instrumentation
    releases unconditionally.  The common part is modelled once; the release
    functions live in the modules [Tracking] and [Plain].

    Modelling choices.
    - The C++ free store holding the [Buffer] objects is an append-only list;
      the address of an object is its index.  A [BufferPtr] (a
      [std::shared_ptr<Buffer>]) is [None] for the null pointer and [Some a]
      otherwise.  Objects are never removed from the store: a caller may keep
      a handle to a record that the pool has dropped.
    - [time(nullptr)] is an input: every function that reads the clock takes
      the value read.
    - A function returns [None] where the C++ program has no defined result:
      a failed [assert], a dereferenced null pointer, [erase(end())].
    - The mutex and the tracking output are not modelled, nor are the bytes
      held by a buffer: [m_buffer] only records the length of the owned block.
    - [uint32_t] and [time_t] values are integers of [Z]; the only arithmetic
      on a [uint32_t] is [++m_usage_count], whose wrap-around is written out.
      [m_buffers_in_use] is an [int]; it is modelled without overflow.
    - [new uint8_t[min_size]] is taken to succeed. *)

From stdpp Require Import base option list gmap fin_maps sorting.
From Stdlib Require Import ZArith Lia.

Local Open Scope Z_scope.

(** ** Data *)

(** [enum Policy]; [TotalPolicies] is the size of the bitset. *)
Inductive Policy := ZeroBuffer | DropOld.

Definition policy_index (p : Policy) : Z :=
  match p with ZeroBuffer => 0 | DropOld => 1 end.

Definition TotalPolicies : Z := 2.

(** [class PersistentBuffer::Buffer] *)
Record Buffer := mkBuffer {
  m_in_use : bool;
  m_data_size : Z;
  m_allocated : Z;
  m_usage_count : Z;
  m_last_used : Z;
  m_buffer : option Z
}.

(** A default-constructed [Buffer] (the member initialisers of the class). *)
Definition Buffer_default : Buffer := mkBuffer false 0 0 0 0 None.

(** [Buffer::reset()]: [m_usage_count] is not touched. *)
Definition Buffer_reset (b : Buffer) : Buffer :=
  mkBuffer false 0 0 (m_usage_count b) 0 None.

Definition BufferPtr : Type := option nat.

(** The static data members of [PersistentBuffer], the file-static
    [m_initialized], and the store of [Buffer] objects. *)
Record State := mkState {
  heap : list Buffer;
  m_cleanup_timeout : Z;
  m_last_cleanup_check : Z;
  m_policies : Z;
  m_buffers : gmap nat bool;
  m_buffers_in_use : Z;
  m_size_list : list nat;
  m_initialized : bool
}.

(** The state after static initialisation. *)
Definition startup : State := mkState [] 0 0 0 ∅ 0 [] false.

Definition with_heap (h : list Buffer) (s : State) : State :=
  mkState h (m_cleanup_timeout s) (m_last_cleanup_check s) (m_policies s)
          (m_buffers s) (m_buffers_in_use s) (m_size_list s) (m_initialized s).
Definition with_cleanup_timeout (t : Z) (s : State) : State :=
  mkState (heap s) t (m_last_cleanup_check s) (m_policies s)
          (m_buffers s) (m_buffers_in_use s) (m_size_list s) (m_initialized s).
Definition with_last_cleanup_check (t : Z) (s : State) : State :=
  mkState (heap s) (m_cleanup_timeout s) t (m_policies s)
          (m_buffers s) (m_buffers_in_use s) (m_size_list s) (m_initialized s).
Definition with_policies (p : Z) (s : State) : State :=
  mkState (heap s) (m_cleanup_timeout s) (m_last_cleanup_check s) p
          (m_buffers s) (m_buffers_in_use s) (m_size_list s) (m_initialized s).
Definition with_buffers (m : gmap nat bool) (s : State) : State :=
  mkState (heap s) (m_cleanup_timeout s) (m_last_cleanup_check s) (m_policies s)
          m (m_buffers_in_use s) (m_size_list s) (m_initialized s).
Definition with_buffers_in_use (n : Z) (s : State) : State :=
  mkState (heap s) (m_cleanup_timeout s) (m_last_cleanup_check s) (m_policies s)
          (m_buffers s) n (m_size_list s) (m_initialized s).
Definition with_size_list (l : list nat) (s : State) : State :=
  mkState (heap s) (m_cleanup_timeout s) (m_last_cleanup_check s) (m_policies s)
          (m_buffers s) (m_buffers_in_use s) l (m_initialized s).
Definition with_initialized (b : bool) (s : State) : State :=
  mkState (heap s) (m_cleanup_timeout s) (m_last_cleanup_check s) (m_policies s)
          (m_buffers s) (m_buffers_in_use s) (m_size_list s) b.

(** Reading through a handle that the pool itself keeps.  Such a handle is a
    copy of the result of a [make_shared], so it is neither null nor dangling
    (the first clause of [pool_ok] below, which every call keeps); the default
    is never reached. *)
Definition deref (h : list Buffer) (a : nat) : Buffer :=
  default Buffer_default (h !! a).

Definition uint32_wrap (z : Z) : Z := z mod 2 ^ 32.

(** ** The generic algorithms of [<algorithm>] used by the pool *)

(** [std::lower_bound(first, last, value, comp)] on a vector, as the usual
    halving loop; the comparator has [value] captured.  Iterators are indices.
    [len] at least halves at every turn, so [length v] turns are enough. *)
Fixpoint lower_bound_loop {A} (comp : A → bool) (v : list A)
    (turns first len : nat) : nat :=
  match turns with
  | O => first
  | S turns =>
      if (len =? 0)%nat then first
      else
        let half := (len / 2)%nat in
        let middle := (first + half)%nat in
        match v !! middle with
        | Some x =>
            if comp x
            then lower_bound_loop comp v turns (middle + 1)%nat (len - half - 1)%nat
            else lower_bound_loop comp v turns first half
        | None => first
        end
  end.

Definition lower_bound {A} (comp : A → bool) (v : list A) : nat :=
  lower_bound_loop comp v (length v) 0%nat (length v).

(** [std::sort(first, last, comp)].  The standard leaves the relative order of
    equivalent elements open; the model inserts each element before the first
    element that is strictly greater.  The results below use only that the
    outcome is an ordered permutation. *)
Fixpoint sort_insert {A} (comp : A → A → bool) (x : A) (l : list A) : list A :=
  match l with
  | [] => [x]
  | y :: l' => if comp x y then x :: y :: l' else y :: sort_insert comp x l'
  end.

Definition sort {A} (comp : A → A → bool) (l : list A) : list A :=
  foldl (λ acc x, sort_insert comp x acc) [] l.

(** [std::find(first, last, value)]: the index of the first occurrence, or
    [None] for [last]. *)
Fixpoint find_index (a : nat) (v : list nat) : option nat :=
  match v with
  | [] => None
  | x :: v' => if (x =? a)%nat then Some 0%nat else S <$> find_index a v'
  end.

(** [v.erase(std::find(v.begin(), v.end(), a))]; erasing [end()] has no defined
    result. *)
Definition erase_find (a : nat) (v : list nat) : option (list nat) :=
  i ← find_index a v; Some (delete i v).

Arguments erase_find : simpl never.

(** ** Policies and configuration *)

Definition initialize (s : State) : State :=
  with_initialized true
    (with_policies (Z.setbit (m_policies s) (policy_index ZeroBuffer)) s).

Definition set_policy (policy : Policy) (s : State) : State :=
  with_policies (Z.setbit (m_policies s) (policy_index policy)) s.

(** The [std::initializer_list] overload. *)
Definition set_policies (policies : list Policy) (s : State) : State :=
  foldl (λ s p, set_policy p s) s policies.

Definition clear_policy (policy : Policy) (s : State) : State :=
  with_policies (Z.clearbit (m_policies s) (policy_index policy)) s.

Definition policy_is_active (policy : Policy) (s : State) : bool :=
  Z.testbit (m_policies s) (policy_index policy).

Definition set_cleanup_timeout (seconds now : Z) (s : State) : State :=
  set_policy DropOld
    (with_last_cleanup_check now (with_cleanup_timeout seconds s)).

(** [buffers_in_use()] converts the [int] to [size_t]. *)
Definition buffers_in_use (s : State) : Z := m_buffers_in_use s mod 2 ^ 64.

Definition buffers_available (s : State) : Z := Z.of_nat (length (m_size_list s)).

(** The keys of [m_buffers] as the range-for visits them.  A [std::map] is
    visited in the order of the pointers, which stands in no relation to the
    order of allocation; the loops over the keys do not depend on the order
    (lemma [drop_buffers_Permutation] for the one that can fail). *)
Definition registry_keys (s : State) : list nat := (map_to_list (m_buffers s)).*1.

Definition reset (s : State) : State :=
  with_buffers ∅
    (with_heap (foldl (λ h a, alter Buffer_reset a h) (heap s) (registry_keys s))
       (with_policies (Z.setbit 0 (policy_index ZeroBuffer)) s)).

Definition buffer_in_use (buffer : BufferPtr) (s : State) : option bool :=
  match buffer with
  | None => Some false
  | Some a => m_in_use <$> heap s !! a
  end.

(** ** Eviction *)

Definition too_old (start_time : Z) (s : State) (a : nat) : bool :=
  negb (m_in_use (deref (heap s) a))
  && (m_cleanup_timeout s <? start_time - m_last_used (deref (heap s) a)).

(** One turn of the second loop of [garbage_collect]. *)
Definition drop_buffer (a : nat) (s : State) : option State :=
  v ← erase_find a (m_size_list s);
  Some (with_size_list v (with_buffers (delete a (m_buffers s)) s)).

Fixpoint drop_buffers (buffers_to_drop : list nat) (s : State) : option State :=
  match buffers_to_drop with
  | [] => Some s
  | a :: rest => s' ← drop_buffer a s; drop_buffers rest s'
  end.

(** [shrink_to_fit] changes the capacity of the vector only. *)
Definition garbage_collect (start_time : Z) (s : State) : option State :=
  drop_buffers (List.filter (too_old start_time s) (registry_keys s)) s.

(** ** Acquisition *)

(** The [while] loop that steps over the records in use: [rest] is the part of
    the vector from [iter] on. *)
Fixpoint skip_in_use (h : list Buffer) (rest : list nat) (iter : nat) : nat :=
  match rest with
  | [] => iter
  | a :: rest' =>
      if m_in_use (deref h a) then skip_in_use h rest' (S iter) else iter
  end.

(** The position at which the search of [single_buffer_unprotected] stops;
    [length (m_size_list s)] stands for [m_size_list.end()]. *)
Definition find_free (min_size : Z) (s : State) : nat :=
  let iter :=
    lower_bound (λ buffer, m_allocated (deref (heap s) buffer) <? min_size)
                (m_size_list s) in
  skip_in_use (heap s) (drop iter (m_size_list s)) iter.

Definition reuse (min_size : Z) (a : nat) (s : State) : State :=
  let b := deref (heap s) a in
  with_buffers_in_use (m_buffers_in_use s + 1)
    (with_heap
       (<[a := mkBuffer true min_size (m_allocated b)
                  (uint32_wrap (m_usage_count b + 1)) (m_last_used b)
                  (m_buffer b)]> (heap s)) s).

(** The state after a new record has been created, registered and sorted into
    [m_size_list], before any eviction. *)
Definition grow (min_size : Z) (s : State) : State :=
  let a := length (heap s) in
  let h := heap s ++ [mkBuffer true min_size min_size (uint32_wrap (0 + 1)) 0
                               (Some min_size)] in
  with_size_list
    (sort (λ a b, m_allocated (deref h a) <? m_allocated (deref h b))
          (m_size_list s ++ [a]))
    (with_buffers_in_use (m_buffers_in_use s + 1)
       (with_buffers (<[a := true]> (m_buffers s)) (with_heap h s))).

(** The two [assert]s are the two [None] of the first branches; [now] is the
    value of [time(nullptr)], read only where a sweep may be due. *)
Definition single_buffer_unprotected (min_size now : Z) (s : State)
    : option (BufferPtr * State) :=
  if negb (m_initialized s) then None else
  let iter := find_free min_size s in
  match m_size_list s !! iter with
  | Some a =>
      if m_allocated (deref (heap s) a) <? min_size then None
      else Some (Some a, reuse min_size a s)
  | None =>
      let a := length (heap s) in
      let s1 := grow min_size s in
      if policy_is_active DropOld s1 && negb (m_cleanup_timeout s1 =? 0) then
        if m_cleanup_timeout s1 <? now - m_last_cleanup_check s1 then
          s2 ← garbage_collect now (with_last_cleanup_check now s1);
          Some (Some a, s2)
        else Some (Some a, s1)
      else Some (Some a, s1)
  end.

Definition single_buffer (min_size now : Z) (s : State)
    : option (BufferPtr * State) :=
  single_buffer_unprotected min_size now s.

(** [single_buffer_from(data, size)]: the [memcpy] writes bytes, which the
    model does not hold. *)
Definition single_buffer_from (data : list Z) (size now : Z) (s : State)
    : option (BufferPtr * State) :=
  single_buffer_unprotected size now s.

(** ** Release *)

(** The body shared by every release: [m_in_use = false], [--m_buffers_in_use],
    [m_last_used = time(nullptr)] on the record at address [a]. *)
Definition mark_free (a : nat) (b : Buffer) (now : Z) (s : State) : State :=
  with_buffers_in_use (m_buffers_in_use s - 1)
    (with_heap
       (<[a := mkBuffer false (m_data_size b) (m_allocated b) (m_usage_count b)
                  now (m_buffer b)]> (heap s)) s).

(** The listing without instrumentation: no test before the release, so a
    null handle is dereferenced. *)
Module Plain.

Definition release_buffer (buffer : BufferPtr) (now : Z) (s : State)
    : option (bool * State) :=
  a ← buffer;
  b ← heap s !! a;
  Some (true, mark_free a b now (with_buffers (<[a := true]> (m_buffers s)) s)).

(** [time i] is the clock read in turn [i] of the loop. *)
Fixpoint release_buffers_loop (buffers : list BufferPtr) (time : nat → Z)
    (i : nat) (s : State) : option State :=
  match buffers with
  | [] => Some s
  | buffer :: rest =>
      a ← buffer;
      b ← heap s !! a;
      release_buffers_loop rest time (S i) (mark_free a b (time i) s)
  end.

Definition release_buffers (buffers : list BufferPtr) (time : nat → Z)
    (s : State) : option (bool * State) :=
  s' ← release_buffers_loop buffers time 0%nat s;
  Some (true, s').

End Plain.

(** The listing with the tracking instrumentation: a release acts only on a
    non-null handle whose record is in use. *)
Module Tracking.

Definition release_buffer (buffer : BufferPtr) (now : Z) (s : State)
    : option (bool * State) :=
  match buffer with
  | None => Some (true, s)
  | Some a =>
      b ← heap s !! a;
      if m_in_use b
      then Some (true,
                 mark_free a b now (with_buffers (<[a := true]> (m_buffers s)) s))
      else Some (true, s)
  end.

Fixpoint release_buffers_loop (buffers : list BufferPtr) (time : nat → Z)
    (i : nat) (s : State) : option State :=
  match buffers with
  | [] => Some s
  | None :: rest => release_buffers_loop rest time (S i) s
  | Some a :: rest =>
      b ← heap s !! a;
      release_buffers_loop rest time (S i)
        (if m_in_use b then mark_free a b (time i) s else s)
  end.

Definition release_buffers (buffers : list BufferPtr) (time : nat → Z)
    (s : State) : option (bool * State) :=
  s' ← release_buffers_loop buffers time 0%nat s;
  Some (true, s').

End Tracking.

(** ** Well-formed pools *)

Definition by_allocated (h : list Buffer) : relation nat :=
  λ a b, m_allocated (deref h a) ≤ m_allocated (deref h b).

(** What every state reached through the interface satisfies.  The handles of
    [m_size_list] point into the store, are ordered by capacity and pairwise
    distinct; every registered record is in [m_size_list] and the value
    stored for it is [true]; a record of [m_size_list] that is no longer
    registered (one left behind by [reset]) has capacity 0; every record in
    use is in [m_size_list]. *)
Definition pool_ok (h : list Buffer) (l : list nat) (m : gmap nat bool) : Prop :=
  Forall (λ a, (a < length h)%nat) l
  ∧ StronglySorted (by_allocated h) l
  ∧ NoDup l
  ∧ map_Forall (λ a v, a ∈ l ∧ v = true) m
  ∧ Forall (λ a, is_Some (m !! a) ∨ m_allocated (deref h a) = 0) l
  ∧ Forall (λ a, m_in_use (deref h a) = true → a ∈ l) (seq 0 (length h)).

Definition pool_inv (s : State) : Prop :=
  m_initialized s = true ∧ pool_ok (heap s) (m_size_list s) (m_buffers s).

#[global] Instance by_allocated_dec h a b : Decision (by_allocated h a b).
Proof. unfold by_allocated. apply _. Defined.

#[global] Instance pool_ok_dec h l m : Decision (pool_ok h l m).
Proof. unfold pool_ok. apply _. Defined.

#[global] Instance pool_inv_dec s : Decision (pool_inv s).
Proof. unfold pool_inv. apply _. Defined.

(** The number of records marked in use. *)
Definition records_in_use (s : State) : Z :=
  Z.of_nat (length (List.filter m_in_use (heap s))).

(** A caller creating a [Buffer] of its own, with [std::make_shared<Buffer>()]:
    the pool is not involved. *)
Definition foreign_buffer (s : State) : BufferPtr * State :=
  (Some (length (heap s)), with_heap (heap s ++ [Buffer_default]) s).

(** ** Notions used in the statements *)

(** The three conditions under which a fresh allocation runs a sweep. *)
Definition sweep_due (now : Z) (s : State) : bool :=
  policy_is_active DropOld s && negb (m_cleanup_timeout s =? 0)
  && (m_cleanup_timeout s <? now - m_last_cleanup_check s).

(** A record has left [m_size_list] or the registry. *)
Definition evicted (s s' : State) : Prop :=
  (∃ a, a ∈ m_size_list s ∧ a ∉ m_size_list s')
  ∨ (∃ a, is_Some (m_buffers s !! a) ∧ m_buffers s' !! a = None).

(** The counter agrees with the records. *)
Definition counter_ok (s : State) : Prop := m_buffers_in_use s = records_in_use s.

(** Every record in use is registered. *)
Definition in_use_registered (s : State) : Prop :=
  ∀ a, m_in_use (deref (heap s) a) = true → m_buffers s !! a = Some true.

(** The calls a program can make; [CallMakeShared] is the caller creating a
    [Buffer] of its own. *)
Inductive Call :=
| CallInitialize
| CallSetCleanupTimeout (seconds now : Z)
| CallSetPolicy (policy : Policy)
| CallSetPolicies (policies : list Policy)
| CallClearPolicy (policy : Policy)
| CallReset
| CallMakeShared
| CallSingleBuffer (min_size now : Z)
| CallReleaseBuffer (buffer : BufferPtr) (now : Z)
| CallReleaseBuffers (buffers : list BufferPtr) (time : nat → Z).

(** The acquisitions and releases among them. *)
Definition acquire_or_release (c : Call) : bool :=
  match c with
  | CallSingleBuffer _ _ | CallReleaseBuffer _ _ | CallReleaseBuffers _ _ => true
  | _ => false
  end.

(** The requests are for a positive number of bytes. *)
Definition positive_size (c : Call) : bool :=
  match c with
  | CallSingleBuffer min_size _ => 0 <? min_size
  | _ => true
  end.

Section run.
Context (release_buffer : BufferPtr → Z → State → option (bool * State)).
Context (release_buffers : list BufferPtr → (nat → Z) → State → option (bool * State)).

Definition call (c : Call) (s : State) : option State :=
  match c with
  | CallInitialize => Some (initialize s)
  | CallSetCleanupTimeout seconds now => Some (set_cleanup_timeout seconds now s)
  | CallSetPolicy policy => Some (set_policy policy s)
  | CallSetPolicies policies => Some (set_policies policies s)
  | CallClearPolicy policy => Some (clear_policy policy s)
  | CallReset => Some (reset s)
  | CallMakeShared => Some (foreign_buffer s).2
  | CallSingleBuffer min_size now => snd <$> single_buffer min_size now s
  | CallReleaseBuffer buffer now => snd <$> release_buffer buffer now s
  | CallReleaseBuffers buffers time => snd <$> release_buffers buffers time s
  end.

Fixpoint run (calls : list Call) (s : State) : option State :=
  match calls with
  | [] => Some s
  | c :: calls => s' ← call c s; run calls s'
  end.
End run.

(** Releasing the handles one at a time with [release_buffer], the clock
    reading [time i] at the i-th release. *)
Fixpoint release_each (release_buffer : BufferPtr → Z → State → option (bool * State))
    (buffers : list BufferPtr) (time : nat → Z) (i : nat) (s : State) : option State :=
  match buffers with
  | [] => Some s
  | buffer :: rest =>
      '(_, s') ← release_buffer buffer (time i) s;
      release_each release_buffer rest time (S i) s'
  end.

(** The scenario of the claim, with either release function: on a freshly
    initialised pool (no cleanup timeout), acquire 100 bytes, release, acquire
    50 bytes. *)
Definition acquire_release_acquire
    (release : BufferPtr → Z → State → option (bool * State)) (t1 t2 t3 : Z)
    : option (BufferPtr * BufferPtr * State) :=
  '(A, s1) ← single_buffer 100 t1 (initialize startup);
  '(_, s2) ← release A t2 s1;
  '(B, s3) ← single_buffer 50 t3 s2;
  Some (A, B, s3).

(** A pool with a free record of 100 bytes and a record of 200 bytes in use:
    the state after [A = single_buffer(100)], [B = single_buffer(200)],
    [release_buffer(A)] at time 5. *)
Definition example_pool : State :=
  mkState [mkBuffer false 100 100 1 5 (Some 100); mkBuffer true 200 200 1 0 (Some 200)]
          0 0 1 {[0%nat := true; 1%nat := true]} 1 [0%nat; 1%nat] true.

(** A pool with timeout 10 holding a record idle since time 5, a record idle
    since time 100 and a record in use. *)
Definition example_idle_pool : State :=
  mkState [mkBuffer false 8 8 1 5 (Some 8); mkBuffer false 16 16 1 100 (Some 16);
           mkBuffer true 32 32 1 0 (Some 32)]
          10 0 3 {[0%nat := true; 1%nat := true; 2%nat := true]} 1
          [0%nat; 1%nat; 2%nat] true.

(** The pool after [initialize()] and [A = single_buffer(100)]. *)
Definition one_in_use : State :=
  mkState [mkBuffer true 100 100 1 0 (Some 100)] 0 0 1 {[0%nat := true]} 1
          [0%nat] true.

(** The pool after [initialize()], [set_cleanup_timeout(10)] at time 0,
    [A = single_buffer(8)], [release_buffer(A)] at time 1 and
    [B = single_buffer(16)] at time 20, which allocates and evicts [A]. *)
Definition after_eviction : State :=
  mkState [mkBuffer false 8 8 1 1 (Some 8); mkBuffer true 16 16 1 0 (Some 16)]
          10 20 3 {[1%nat := true]} 1 [1%nat] true.

(** The pool after [initialize()], [A = single_buffer(5)], [reset()] and
    [single_buffer(0)], which hands out [A] again: [A] is in use, in
    [m_size_list] and not registered. *)
Definition after_reset : State :=
  mkState [mkBuffer true 0 0 2 0 None] 0 0 1 ∅ 2 [0%nat] true.

(** ** More of the code *)

#[global] Instance Policy_eq_dec : EqDecision Policy.
Proof. solve_decision. Defined.

(** Every record of [s] is still there in [s'], with the capacity and the
    block it had. *)
Definition capacity_kept (s s' : State) : Prop :=
  ∀ a b, heap s !! a = Some b →
    ∃ b', heap s' !! a = Some b'
          ∧ m_allocated b' = m_allocated b ∧ m_buffer b' = m_buffer b.

Definition is_reset (c : Call) : bool :=
  match c with CallReset => true | _ => false end.

(** *** The loops of main.cpp

    The elapsed time that the test functions add up and return is not
    modelled; the sizes drawn from the random generator and the clock
    readings are inputs, one entry per turn of the loop. *)

(** [run_single_buffer_test]: each turn acquires a buffer of the size drawn
    and releases it. *)
Fixpoint run_single_buffer_test
    (release_buffer : BufferPtr → Z → State → option (bool * State))
    (requests : list (Z * Z * Z)) (s : State) : option State :=
  match requests with
  | [] => Some s
  | (size, t1, t2) :: rest =>
      '(buffer, s1) ← single_buffer size t1 s;
      '(_, s2) ← release_buffer buffer t2 s1;
      run_single_buffer_test release_buffer rest s2
  end.

(** The first loop in a turn of [run_release_buffers_test]: one acquisition
    per entry of [max_buffers], none released. *)
Fixpoint acquire_all (requests : list (Z * Z)) (s : State)
    : option (list BufferPtr * State) :=
  match requests with
  | [] => Some ([], s)
  | (size, t) :: rest =>
      '(buffer, s1) ← single_buffer size t s;
      '(buffers, s2) ← acquire_all rest s1;
      Some (buffer :: buffers, s2)
  end.

(** [run_release_buffers_test]: each turn fills the vector [buffers] and
    releases it in one batch.  In main.cpp every turn has
    [max_buffers.size() = 10] requests. *)
Fixpoint run_release_buffers_test
    (release_buffers : list BufferPtr → (nat → Z) → State → option (bool * State))
    (turns : list (list (Z * Z) * (nat → Z))) (s : State) : option State :=
  match turns with
  | [] => Some s
  | (requests, time) :: rest =>
      '(buffers, s1) ← acquire_all requests s;
      '(_, s2) ← release_buffers buffers time s1;
      run_release_buffers_test release_buffers rest s2
  end.

(** No record of the pool is in use. *)
Definition all_free (s : State) : Prop :=
  ∀ a, m_in_use (deref (heap s) a) = false.

(** [top] is the largest capacity in the pool, -1 standing for the empty
    pool. *)
Definition top_capacity (s : State) (top : Z) : Prop :=
  (∀ a, a ∈ m_size_list s → m_allocated (deref (heap s) a) ≤ top)
  ∧ ((∃ a, a ∈ m_size_list s ∧ m_allocated (deref (heap s) a) = top)
     ∨ (m_size_list s = [] ∧ top = -1)).

(** The number of sizes in the sequence that exceed [top] and everything
    before them. *)
Fixpoint new_highs (top : Z) (sizes : list Z) : nat :=
  match sizes with
  | [] => 0
  | n :: rest => if top <? n then S (new_highs n rest) else new_highs top rest
  end.

(** *** The contents of the blocks

    The records above hold of a block only whether it is there ([m_buffer]).
    Here the bytes are added, as a map from the address of a record to the
    block it owns.  A byte that has not been written since
    [new uint8_t[min_size]] is [None].  A block stays in the map when the pool
    lets go of its record, as the record stays in the store. *)
Module Bytes.

Abbreviation Blocks := (gmap nat (list (option Z))).

(** [Buffer::ro()] and [Buffer::rw()]: the failed [assert] is the outer
    [None]; the value is the pointer [m_buffer.get()], which can be null. *)
Definition ro (b : Buffer) : option (option Z) :=
  if m_in_use b then Some (m_buffer b) else None.

Definition rw (b : Buffer) : option (option Z) :=
  if m_in_use b then Some (m_buffer b) else None.

(** [Buffer::data()] and [Buffer::size()] *)
Definition data (b : Buffer) : option Z := m_buffer b.

Definition size (b : Buffer) : Z := m_data_size b.

(** [memset(p, c, n)] and [memcpy(p, src, n)] on a block of [length block]
    bytes, [src] being the bytes that can be read at the source pointer.
    Writing or reading past the end has no defined result. *)
Definition memset (block : list (option Z)) (c : Z) (n : nat)
    : option (list (option Z)) :=
  if decide (n ≤ length block)%nat
  then Some (replicate n (Some c) ++ drop n block) else None.

Definition memcpy (block : list (option Z)) (src : list Z) (n : nat)
    : option (list (option Z)) :=
  if decide (n ≤ length block ∧ n ≤ length src)%nat
  then Some ((Some <$> take n src) ++ drop n block) else None.

(** [single_buffer_unprotected] with the bytes: the two [memset] of the
    branch that reuses a record are under [#if 0]. *)
Definition single_buffer_unprotected (min_size now : Z) (s : State) (m : Blocks)
    : option (BufferPtr * State * Blocks) :=
  if negb (m_initialized s) then None else
  let iter := find_free min_size s in
  match m_size_list s !! iter with
  | Some a =>
      if m_allocated (deref (heap s) a) <? min_size then None
      else Some (Some a, reuse min_size a s, m)
  | None =>
      let a := length (heap s) in
      let block := replicate (Z.to_nat min_size) None in
      block ← (if policy_is_active ZeroBuffer s
               then memset block 0 (Z.to_nat min_size) else Some block);
      let m1 := <[a := block]> m in
      let s1 := grow min_size s in
      if policy_is_active DropOld s1 && negb (m_cleanup_timeout s1 =? 0) then
        if m_cleanup_timeout s1 <? now - m_last_cleanup_check s1 then
          s2 ← garbage_collect now (with_last_cleanup_check now s1);
          Some (Some a, s2, m1)
        else Some (Some a, s1, m1)
      else Some (Some a, s1, m1)
  end.

(** The copy of [single_buffer_from]: [p] is what the listing takes for the
    destination, [buffer->rw()] or [buffer->data().get()].  A null handle or a
    null destination leaves the result undefined. *)
Definition copy_to (p : Buffer → option (option Z)) (src : list Z) (n : Z)
    (buffer : BufferPtr) (s : State) (m : Blocks) : option Blocks :=
  a ← buffer;
  b ← heap s !! a;
  dest ← p b;
  _ ← dest;
  block ← m !! a;
  block' ← memcpy block src (Z.to_nat n);
  Some (<[a := block']> m).

(** The listing with the instrumentation: [auto p{buffer->rw()}]. *)
Module Tracking.

(** [single_buffer_from(const uint8_t* data, uint32_t size)] *)
Definition single_buffer_from (src : list Z) (n now : Z) (s : State) (m : Blocks)
    : option (BufferPtr * State * Blocks) :=
  '(buffer, s1, m1) ← single_buffer_unprotected n now s m;
  m2 ← copy_to rw src n buffer s1 m1;
  Some (buffer, s1, m2).

(** [single_buffer_from(const char* data, size_t size)]: the cast to
    [uint32_t] drops the upper half of [size]. *)
Definition single_buffer_from_chars (src : list Z) (n now : Z) (s : State)
    (m : Blocks) : option (BufferPtr * State * Blocks) :=
  single_buffer_from src (uint32_wrap n) now s m.

(** [single_buffer_from(const std::string& data)]: [c_str()] is the
    characters followed by the terminating 0. *)
Definition single_buffer_from_string (str : list Z) (now : Z) (s : State)
    (m : Blocks) : option (BufferPtr * State * Blocks) :=
  single_buffer_from (str ++ [0]) (uint32_wrap (Z.of_nat (length str) + 1)) now s m.

End Tracking.

(** The listing without: [buffer->data().get()]. *)
Module Plain.

Definition single_buffer_from (src : list Z) (n now : Z) (s : State) (m : Blocks)
    : option (BufferPtr * State * Blocks) :=
  '(buffer, s1, m1) ← single_buffer_unprotected n now s m;
  m2 ← copy_to (λ b, Some (data b)) src n buffer s1 m1;
  Some (buffer, s1, m2).

Definition single_buffer_from_chars (src : list Z) (n now : Z) (s : State)
    (m : Blocks) : option (BufferPtr * State * Blocks) :=
  single_buffer_from src (uint32_wrap n) now s m.

End Plain.

(** Every record either has no block and capacity 0 (a default-constructed
    record, or one that [reset] went over), or owns a block of as many bytes
    as its capacity. *)
Definition block_ok (m : Blocks) (a : nat) (b : Buffer) : Prop :=
  (m_buffer b = None ∧ m_allocated b = 0)
  ∨ (m_buffer b = Some (m_allocated b)
     ∧ length <$> m !! a = Some (Z.to_nat (m_allocated b))).

Definition blocks_ok (s : State) (m : Blocks) : Prop :=
  Forall (λ a, block_ok m a (deref (heap s) a)) (seq 0 (length (heap s))).

#[global] Instance block_ok_dec m a b : Decision (block_ok m a b).
Proof. unfold block_ok. apply _. Defined.

#[global] Instance blocks_ok_dec s m : Decision (blocks_ok s m).
Proof. unfold blocks_ok. apply _. Defined.

(** The first [n] bytes of the block of the record at [a]. *)
Definition contents (m : Blocks) (a : nat) (n : nat) : option (list (option Z)) :=
  take n <$> m !! a.

End Bytes.

(** ** Facts about the generic algorithms *)

Section lower_bound.
Context {A : Type} (comp : A → bool) (v : list A).

(** The range is partitioned with respect to [comp]: once [comp] fails it
    fails for every later element. *)
Hypothesis partitioned : ∀ i j x y,
  (i ≤ j)%nat → v !! i = Some x → v !! j = Some y → comp y = true → comp x = true.

Lemma lower_bound_loop_spec turns first len :
  (len ≤ turns)%nat →
  (first + len ≤ length v)%nat →
  (∀ i x, (i < first)%nat → v !! i = Some x → comp x = true) →
  (∀ i x, (first + len ≤ i)%nat → v !! i = Some x → comp x = false) →
  let r := lower_bound_loop comp v turns first len in
  (r ≤ length v)%nat
  ∧ (∀ i x, (i < r)%nat → v !! i = Some x → comp x = true)
  ∧ (∀ i x, (r ≤ i)%nat → v !! i = Some x → comp x = false).
Proof.
  revert first len. induction turns as [|turns IH]; intros first len Hlen Hbound Hlo Hhi.
  - assert (len = 0)%nat as -> by lia. cbn [lower_bound_loop].
    split; [lia|]. split; [done|]. intros i x ?. apply (Hhi i). lia.
  - cbn [lower_bound_loop]. destruct (Nat.eqb_spec len 0) as [->|Hne].
    { split; [lia|]. split; [done|]. intros i x ?. apply (Hhi i). lia. }
    assert (len / 2 < len)%nat as Hhalf by (apply Nat.div_lt; lia).
    destruct (v !! (first + len / 2)%nat) as [x|] eqn:Hmid.
    2:{ apply lookup_ge_None in Hmid. lia. }
    destruct (comp x) eqn:Hc.
    + apply IH; [lia|lia| |].
      * intros i y Hi Hy. apply (partitioned i (first + len / 2)%nat y x); [lia|done..].
      * intros i y Hi Hy. apply (Hhi i); [lia|done].
    + apply IH; [lia|lia|done|].
      intros i y Hi Hy. destruct (comp y) eqn:Hcy; [|done].
      rewrite (partitioned (first + len / 2)%nat i x y) in Hc; [done|lia|done..].
Qed.

Lemma lower_bound_spec :
  let r := lower_bound comp v in
  (r ≤ length v)%nat
  ∧ (∀ i x, (i < r)%nat → v !! i = Some x → comp x = true)
  ∧ (∀ i x, (r ≤ i)%nat → v !! i = Some x → comp x = false).
Proof.
  apply lower_bound_loop_spec; [lia|lia|lia|].
  intros i x Hi Hx. apply lookup_lt_Some in Hx. lia.
Qed.
End lower_bound.

Section sort.
Context {A : Type} (comp : A → A → bool).

Lemma sort_insert_Permutation x l : sort_insert comp x l ≡ₚ x :: l.
Proof.
  induction l as [|y l IH]; simpl; [done|].
  destruct (comp x y); [done|]. rewrite IH. apply Permutation_swap.
Qed.

Lemma sort_Permutation l : sort comp l ≡ₚ l.
Proof.
  unfold sort. rewrite <-(app_nil_l l) at 2. generalize (@nil A).
  induction l as [|x l IH]; intros acc; simpl.
  - by rewrite app_nil_r.
  - rewrite IH, sort_insert_Permutation. simpl. apply Permutation_middle.
Qed.

(** [R] is the non-strict order of which [comp] is the strict part. *)
Context (R : relation A) `{!Transitive R}.
Hypothesis comp_lt : ∀ x y, comp x y = true → R x y.
Hypothesis comp_ge : ∀ x y, comp x y = false → R y x.

Lemma sort_insert_sorted x l :
  StronglySorted R l → StronglySorted R (sort_insert comp x l).
Proof.
  induction l as [|y l IH]; simpl; intros Hl.
  - repeat constructor.
  - apply StronglySorted_cons in Hl as [Hy Hl].
    destruct (comp x y) eqn:Hc.
    + apply StronglySorted_cons. split.
      * constructor; [by apply comp_lt|].
        eapply Forall_impl; [exact Hy|]. intros z Hz. etrans; [|exact Hz].
        by apply comp_lt.
      * by apply StronglySorted_cons.
    + apply StronglySorted_cons. split; [|by apply IH].
      rewrite sort_insert_Permutation. constructor; [by apply comp_ge|done].
Qed.

Lemma sort_sorted l : StronglySorted R (sort comp l).
Proof.
  unfold sort. assert (StronglySorted R (@nil A)) as Hnil by constructor.
  revert Hnil. generalize (@nil A).
  induction l as [|x l IH]; intros acc Hacc; simpl; [done|].
  apply IH. by apply sort_insert_sorted.
Qed.

End sort.

Lemma find_index_Some a v i :
  find_index a v = Some i → v !! i = Some a ∧ a ∉ take i v.
Proof.
  revert i. induction v as [|x v IH]; intros i; simpl; [done|].
  destruct (Nat.eqb_spec x a) as [->|Hne].
  - intros [= <-]. split; [done|]. simpl. apply not_elem_of_nil.
  - destruct (find_index a v) as [j|]; [|done]. intros [= <-].
    destruct (IH j eq_refl) as [? ?]. split; [done|].
    simpl. rewrite not_elem_of_cons. done.
Qed.

Lemma find_index_is_Some a v : a ∈ v → is_Some (find_index a v).
Proof.
  induction v as [|x v IH]; simpl.
  - by intros ?%elem_of_nil.
  - destruct (Nat.eqb_spec x a) as [->|Hne]; [by eexists|].
    intros [?|Hin]%elem_of_cons; [congruence|].
    destruct (IH Hin) as [j ->]. by eexists.
Qed.

Lemma find_index_None a v : find_index a v = None → a ∉ v.
Proof.
  intros Hnone Hin. apply find_index_is_Some in Hin as [? ?]. congruence.
Qed.

Lemma StronglySorted_lookup {A} (R : relation A) l i j x y :
  StronglySorted R l → (i < j)%nat → l !! i = Some x → l !! j = Some y → R x y.
Proof.
  intros Hl. revert i j. induction Hl as [|z l Hl IH Hz]; intros i j Hij Hi Hj.
  - by rewrite lookup_nil in Hi.
  - destruct j as [|j]; [lia|]. destruct i as [|i]; simpl in *.
    + injection Hi as ->. rewrite Forall_forall in Hz. apply Hz.
      by eapply list_elem_of_lookup_2.
    + apply (IH i j); [lia|done..].
Qed.

Lemma StronglySorted_delete {A} (R : relation A) l i :
  StronglySorted R l → StronglySorted R (delete i l).
Proof.
  intros Hl. rewrite delete_take_drop.
  rewrite <-(take_drop i l) in Hl. apply StronglySorted_app in Hl as (Hx & H1 & H2).
  apply StronglySorted_app. split_and!; [|done|].
  - intros x1 x2 Hx1 Hx2. apply Hx; [done|].
    rewrite <-(take_drop 1 (drop i l)), drop_drop. apply elem_of_app. right.
    by replace (i + 1)%nat with (S i) by lia.
  - rewrite <-(take_drop 1 (drop i l)), drop_drop in H2.
    apply StronglySorted_app_1_r in H2. by replace (i + 1)%nat with (S i) in H2 by lia.
Qed.

#[global] Instance by_allocated_trans h : Transitive (by_allocated h).
Proof. unfold by_allocated. intros a b c. lia. Qed.

(** ** Facts about the search *)

Lemma skip_in_use_spec h rest iter :
  let r := skip_in_use h rest iter in
  (iter ≤ r ≤ iter + length rest)%nat
  ∧ (∀ j a, (j < r - iter)%nat → rest !! j = Some a → m_in_use (deref h a) = true)
  ∧ (∀ a, rest !! (r - iter)%nat = Some a → m_in_use (deref h a) = false).
Proof.
  revert iter. induction rest as [|a rest IH]; intros iter; simpl.
  - split; [lia|]. split; intros; by rewrite ?lookup_nil in *.
  - destruct (m_in_use (deref h a)) eqn:Ha.
    + destruct (IH (S iter)) as (Hr & Hbefore & Hat). split; [lia|]. split.
      * intros [|j] b Hj Hb; simpl in Hb; [congruence|]. apply (Hbefore j); [lia|done].
      * intros b.
        replace (skip_in_use h rest (S iter) - iter)%nat
          with (S (skip_in_use h rest (S iter) - S iter)) by lia.
        simpl. apply Hat.
    + split; [lia|]. split; [intros; lia|].
      rewrite Nat.sub_diag. simpl. congruence.
Qed.

Section find_free.
Context (min_size : Z) (s : State).
Hypothesis sorted : StronglySorted (by_allocated (heap s)) (m_size_list s).

Let comp : nat → bool := λ buffer, m_allocated (deref (heap s) buffer) <? min_size.
Let lb : nat := lower_bound comp (m_size_list s).

(** [lower_bound] finds the first record whose capacity is at least
    [min_size]. *)
Lemma lower_bound_by_allocated j b :
  m_size_list s !! j = Some b →
  (j < lb)%nat ↔ m_allocated (deref (heap s) b) < min_size.
Proof.
  intros Hb.
  destruct (lower_bound_spec comp (m_size_list s)) as (_ & Hlo & Hhi).
  { intros i k x y Hik Hx Hy. unfold comp. rewrite !Z.ltb_lt.
    destruct (decide (i = k)) as [->|]; [by simplify_eq|].
    pose proof (StronglySorted_lookup _ _ i k x y sorted ltac:(lia) Hx Hy) as HR.
    unfold by_allocated in HR. lia. }
  fold lb in Hlo, Hhi. split.
  - intros Hj. specialize (Hlo j b Hj Hb). unfold comp in Hlo. lia.
  - intros Hlt. destruct (decide (j < lb)%nat) as [|Hge]; [done|].
    specialize (Hhi j b ltac:(lia) Hb). unfold comp in Hhi. lia.
Qed.

Lemma find_free_ge : (lb ≤ find_free min_size s)%nat.
Proof.
  unfold find_free. fold comp. fold lb.
  destruct (skip_in_use_spec (heap s) (drop lb (m_size_list s)) lb) as (? & _). lia.
Qed.

(** The scan steps over records in use only. *)
Lemma find_free_skipped j b :
  (lb ≤ j < find_free min_size s)%nat → m_size_list s !! j = Some b →
  m_in_use (deref (heap s) b) = true.
Proof.
  unfold find_free. fold comp. fold lb. intros Hj Hb.
  destruct (skip_in_use_spec (heap s) (drop lb (m_size_list s)) lb) as (_ & Hbefore & _).
  apply (Hbefore (j - lb)%nat); [lia|].
  rewrite lookup_drop. by replace (lb + (j - lb))%nat with j by lia.
Qed.

(** Where the scan stops inside the vector, the record is free and large
    enough. *)
Lemma find_free_found a :
  m_size_list s !! find_free min_size s = Some a →
  m_in_use (deref (heap s) a) = false ∧ min_size ≤ m_allocated (deref (heap s) a).
Proof.
  intros Ha. split.
  - pose proof find_free_ge as Hge. revert Ha Hge.
    unfold find_free. fold comp. fold lb. intros Ha Hge.
    destruct (skip_in_use_spec (heap s) (drop lb (m_size_list s)) lb) as (_ & _ & Hat).
    apply Hat. rewrite lookup_drop.
    by replace (lb + (_ - lb))%nat with
      (skip_in_use (heap s) (drop lb (m_size_list s)) lb) by lia.
  - pose proof (lower_bound_by_allocated _ _ Ha) as Hlb.
    pose proof find_free_ge. lia.
Qed.

(** Every record before the stopping position is too small or in use. *)
Lemma find_free_before j b :
  (j < find_free min_size s)%nat → m_size_list s !! j = Some b →
  m_allocated (deref (heap s) b) < min_size ∨ m_in_use (deref (heap s) b) = true.
Proof.
  intros Hj Hb. destruct (decide (j < lb)%nat) as [Hlt|Hge].
  - left. by apply (lower_bound_by_allocated j).
  - right. apply (find_free_skipped j); [lia|done].
Qed.

(** The record found has the least capacity among the free records that
    are large enough. *)
Lemma find_free_least a b :
  m_size_list s !! find_free min_size s = Some a →
  b ∈ m_size_list s →
  m_in_use (deref (heap s) b) = false →
  min_size ≤ m_allocated (deref (heap s) b) →
  m_allocated (deref (heap s) a) ≤ m_allocated (deref (heap s) b).
Proof.
  intros Ha [j Hb]%list_elem_of_lookup_1 Hfree Hfit.
  destruct (decide (j < find_free min_size s)%nat) as [Hlt|Hge].
  { destruct (find_free_before j b Hlt Hb); [lia|congruence]. }
  destruct (decide (j = find_free min_size s)) as [->|Hne]; [by simplify_eq|].
  apply (StronglySorted_lookup _ _ (find_free min_size s) j a b sorted); [lia|done..].
Qed.

(** The scan runs off the end only if no free record is large enough. *)
Lemma find_free_none b :
  m_size_list s !! find_free min_size s = None →
  b ∈ m_size_list s →
  m_allocated (deref (heap s) b) < min_size ∨ m_in_use (deref (heap s) b) = true.
Proof.
  intros Hnone [j Hb]%list_elem_of_lookup_1.
  apply lookup_ge_None in Hnone. apply lookup_lt_Some in Hb as Hlt.
  apply (find_free_before j); [lia|done].
Qed.
End find_free.

(** ** Facts about eviction *)

Lemma elem_of_delete_ne {A} (l : list A) i x y :
  l !! i = Some y → x ≠ y → x ∈ l → x ∈ delete i l.
Proof.
  intros Hy Hne Hx. rewrite delete_take_drop.
  rewrite <-(take_drop_middle l i y Hy) in Hx.
  rewrite elem_of_app, elem_of_cons in Hx. rewrite elem_of_app.
  destruct Hx as [?|[?|?]]; [by left|done|by right].
Qed.

Lemma elem_of_registry_keys s a : a ∈ registry_keys s ↔ is_Some (m_buffers s !! a).
Proof.
  unfold registry_keys. rewrite list_elem_of_fmap. split.
  - intros ([k v] & -> & Hkv). apply elem_of_map_to_list in Hkv. by eexists.
  - intros [v Hv]. exists (a, v). split; [done|]. by apply elem_of_map_to_list.
Qed.

Lemma elem_of_buffers_to_drop start_time s a :
  a ∈ List.filter (too_old start_time s) (registry_keys s)
  ↔ is_Some (m_buffers s !! a) ∧ too_old start_time s a = true.
Proof. by rewrite list_elem_of_In, filter_In, <-list_elem_of_In, elem_of_registry_keys. Qed.

Lemma NoDup_buffers_to_drop start_time s :
  NoDup (List.filter (too_old start_time s) (registry_keys s)).
Proof. apply NoDup_ListNoDup, List.NoDup_filter, NoDup_ListNoDup, NoDup_fst_map_to_list. Qed.

Lemma drop_buffers_spec l s s' :
  drop_buffers l s = Some s' →
  s' = with_size_list (m_size_list s') (with_buffers (m_buffers s') s)
  ∧ (∀ a, m_buffers s' !! a = if decide (a ∈ l) then None else m_buffers s !! a)
  ∧ m_size_list s' `sublist_of` m_size_list s
  ∧ (∀ a, a ∈ m_size_list s → a ∉ l → a ∈ m_size_list s')
  ∧ (NoDup (m_size_list s) → ∀ a, a ∈ l → a ∉ m_size_list s').
Proof.
  revert s. induction l as [|b l IH]; intros s; simpl.
  - intros [= <-]. split; [by destruct s|]. split; [done|]. split; [done|].
    split; [done|]. intros _ a Ha. by apply elem_of_nil in Ha.
  - unfold drop_buffer, erase_find. destruct (find_index b (m_size_list s)) as [i|] eqn:Hi; [|done].
    simpl. intros Hs'. apply find_index_Some in Hi as [Hi Hfirst].
    apply IH in Hs' as (Heq & Hreg & Hsub & Hkeep & Hgone). simpl in *.
    split; [by rewrite Heq at 1|]. split; [|split; [|split]].
    + intros a. rewrite Hreg.
      destruct (decide (a ∈ l)) as [Hl|Hl], (decide (a ∈ b :: l)) as [Hbl|Hbl].
      * done.
      * destruct Hbl. by right.
      * apply elem_of_cons in Hbl as [->|?]; [|done]. apply lookup_delete_eq.
      * apply not_elem_of_cons in Hbl as [? _]. by apply lookup_delete_ne.
    + etrans; [exact Hsub|]. apply sublist_delete.
    + intros a Ha [Hne Hnl]%not_elem_of_cons. apply Hkeep; [|done].
      by apply (elem_of_delete_ne _ i a b).
    + intros Hnd a [->|Ha]%elem_of_cons.
      * intros Hin. apply (elem_of_sublist _ _ _ Hin) in Hsub.
        rewrite delete_take_drop in Hsub.
        rewrite <-(take_drop_middle _ i b Hi) in Hnd.
        apply NoDup_app in Hnd as (_ & Hnd1 & Hnd2). apply NoDup_cons in Hnd2 as [? _].
        apply elem_of_app in Hsub as [?|?]; [|done].
        by apply (Hnd1 b); [|left].
      * apply Hgone; [|done]. eapply sublist_NoDup; [done|apply sublist_delete].
Qed.

Lemma drop_buffers_total l s :
  NoDup l → (∀ a, a ∈ l → a ∈ m_size_list s) → is_Some (drop_buffers l s).
Proof.
  revert s. induction l as [|b l IH]; intros s Hnd Hin; simpl; [by eexists|].
  apply NoDup_cons in Hnd as [Hb Hnd].
  unfold drop_buffer, erase_find.
  destruct (find_index_is_Some b (m_size_list s)) as [i Hi]; [apply Hin; by left|].
  rewrite Hi. simpl. apply IH; [done|]. simpl. intros a Ha.
  apply find_index_Some in Hi as [Hi _].
  apply (elem_of_delete_ne _ i a b); [done| |apply Hin; by right].
  intros ->. done.
Qed.

(** The second loop of [garbage_collect] does not depend on the order in
    which the records to drop are visited. *)
Lemma erase_find_cons a x v :
  erase_find a (x :: v)
  = if (x =? a)%nat then Some v else (x ::.) <$> erase_find a v.
Proof.
  unfold erase_find. simpl. destruct (x =? a)%nat; [done|]. by destruct (find_index a v).
Qed.

Lemma erase_find_comm a b v :
  a ≠ b →
  (v1 ← erase_find a v; erase_find b v1) = (v1 ← erase_find b v; erase_find a v1).
Proof.
  intros Hne. induction v as [|x v IH]; [done|].
  rewrite !erase_find_cons.
  destruct (Nat.eqb_spec x a) as [Hxa|Hxa], (Nat.eqb_spec x b) as [Hxb|Hxb].
  - congruence.
  - subst x. cbn [mbind option_bind]. destruct (erase_find b v) as [vb|]; cbn; [|done].
    rewrite erase_find_cons. by rewrite Nat.eqb_refl.
  - subst x. cbn [mbind option_bind]. destruct (erase_find a v) as [va|]; cbn; [|done].
    rewrite erase_find_cons. by rewrite Nat.eqb_refl.
  - destruct (erase_find a v) as [va|], (erase_find b v) as [vb|]; cbn in *.
    + rewrite !erase_find_cons.
      destruct (Nat.eqb_spec x a); [done|]. destruct (Nat.eqb_spec x b); [done|].
      by rewrite IH.
    + rewrite erase_find_cons. destruct (Nat.eqb_spec x b); [done|]. by rewrite IH.
    + rewrite erase_find_cons. destruct (Nat.eqb_spec x a); [done|]. by rewrite <-IH.
    + done.
Qed.

Lemma drop_buffer_comm a b s :
  (s1 ← drop_buffer a s; drop_buffer b s1) = (s1 ← drop_buffer b s; drop_buffer a s1).
Proof.
  destruct (decide (a = b)) as [->|Hne]; [done|].
  pose proof (erase_find_comm a b (m_size_list s) Hne) as Hlist.
  unfold drop_buffer.
  destruct (erase_find a (m_size_list s)) as [va|], (erase_find b (m_size_list s)) as [vb|];
    cbn in *.
  - destruct (erase_find b va) as [vab|], (erase_find a vb) as [vba|]; cbn in *; try done.
    injection Hlist as ->. by rewrite (delete_delete _ a b).
  - by destruct (erase_find b va).
  - by destruct (erase_find a vb).
  - done.
Qed.

Lemma drop_buffers_Permutation l l' s :
  l ≡ₚ l' → drop_buffers l s = drop_buffers l' s.
Proof.
  intros Hperm. revert s.
  induction Hperm as [|x l l' _ IH|x y l|l l' l'' _ IH1 _ IH2]; intros s; simpl.
  - done.
  - destruct (drop_buffer x s); simpl; [apply IH|done].
  - pose proof (drop_buffer_comm y x s) as Hc.
    destruct (drop_buffer y s) as [s1|], (drop_buffer x s) as [s2|]; simpl in *.
    + by rewrite Hc.
    + by rewrite Hc.
    + by rewrite <-Hc.
    + done.
  - by rewrite IH1.
Qed.

(** ** Reading the store *)

Lemma deref_lookup h a b : h !! a = Some b → deref h a = b.
Proof. unfold deref. by intros ->. Qed.

Lemma deref_ge h a : (length h ≤ a)%nat → deref h a = Buffer_default.
Proof. intros Hge. unfold deref. by rewrite (lookup_ge_None_2 h a). Qed.

Lemma deref_insert h a b x :
  (a < length h)%nat →
  deref (<[a := b]> h) x = if decide (x = a) then b else deref h x.
Proof.
  intros Hlt. unfold deref. case_decide as Hx.
  - subst x. by rewrite list_lookup_insert_eq.
  - by rewrite list_lookup_insert_ne.
Qed.

Lemma deref_app_l h h' x : (x < length h)%nat → deref (h ++ h') x = deref h x.
Proof. intros Hlt. unfold deref. by rewrite lookup_app_l. Qed.

Lemma deref_app_new h b : deref (h ++ [b]) (length h) = b.
Proof.
  unfold deref. rewrite lookup_app_r by lia. by rewrite Nat.sub_diag.
Qed.

Lemma pool_ok_in_use h l m a :
  pool_ok h l m → m_in_use (deref h a) = true → a ∈ l.
Proof.
  intros (_ & _ & _ & _ & _ & Huse) Ha.
  destruct (decide (a < length h)%nat) as [Hlt|Hge].
  - rewrite Forall_forall in Huse. apply Huse; [|done].
    apply elem_of_seq. lia.
  - rewrite deref_ge in Ha by lia. done.
Qed.

(** ** The invariant is kept *)

Lemma pool_ok_startup : pool_ok [] [] ∅.
Proof.
  unfold pool_ok. split_and!; [constructor|constructor|constructor| |constructor|constructor].
  apply map_Forall_empty.
Qed.

(** A record is overwritten without changing its capacity. *)
Lemma pool_ok_store h l m a b :
  pool_ok h l m →
  (a < length h)%nat →
  m_allocated b = m_allocated (deref h a) →
  (m_in_use b = true → a ∈ l) →
  pool_ok (<[a := b]> h) l m.
Proof.
  intros (Hlive & Hsorted & Hnd & Hreg & Hstale & Huse) Ha Hcap Hin.
  assert (∀ x, m_allocated (deref (<[a := b]> h) x) = m_allocated (deref h x)) as Hsame.
  { intros x. rewrite deref_insert by done. case_decide; by subst. }
  unfold pool_ok. rewrite length_insert. split_and!; try done.
  - clear -Hsorted Hsame. induction Hsorted as [|x l' Hs IH Hx]; constructor; [done|].
    eapply Forall_impl; [exact Hx|]. intros y. unfold by_allocated. by rewrite !Hsame.
  - eapply Forall_impl; [exact Hstale|]. intros x. simpl. by rewrite Hsame.
  - rewrite Forall_forall in Huse |- *. intros x Hx. rewrite deref_insert by done.
    case_decide; [subst; done|]. by apply Huse.
Qed.

Lemma pool_ok_register h l m a :
  pool_ok h l m → a ∈ l → pool_ok h l (<[a := true]> m).
Proof.
  intros (Hlive & Hsorted & Hnd & Hreg & Hstale & Huse) Ha.
  unfold pool_ok. split_and!; try done.
  - by apply map_Forall_insert_2.
  - eapply Forall_impl; [exact Hstale|]. intros x [Hx|Hx]; [left|by right].
    destruct (decide (x = a)) as [->|]; [by rewrite lookup_insert_eq|].
    by rewrite lookup_insert_ne.
Qed.

Lemma pool_ok_foreign h l m :
  pool_ok h l m → pool_ok (h ++ [Buffer_default]) l m.
Proof.
  intros (Hlive & Hsorted & Hnd & Hreg & Hstale & Huse).
  assert (∀ x, x ∈ l → deref (h ++ [Buffer_default]) x = deref h x) as Hsame.
  { intros x Hx. apply deref_app_l. rewrite Forall_forall in Hlive. by apply Hlive. }
  unfold pool_ok. rewrite length_app. simpl. split_and!; try done.
  - eapply Forall_impl; [exact Hlive|]. intros x. simpl. lia.
  - clear -Hsorted Hsame. induction Hsorted as [|x l' Hs IH Hx]; constructor.
    + apply IH. intros y Hy. apply Hsame. by right.
    + rewrite Forall_forall in Hx |- *. intros y Hy. unfold by_allocated.
      rewrite !Hsame; [by apply Hx|by right|by left].
  - rewrite Forall_forall in Hstale |- *. intros x Hx. rewrite Hsame by done. by apply Hstale.
  - rewrite Forall_forall in Huse |- *. intros x [_ Hx]%elem_of_seq.
    destruct (decide (x < length h)%nat) as [Hlt|Hge].
    + rewrite deref_app_l by done. apply Huse. apply elem_of_seq. lia.
    + assert (x = length h) as -> by lia. by rewrite deref_app_new.
Qed.

Lemma pool_ok_grow h l m b :
  pool_ok h l m →
  pool_ok (h ++ [b])
    (sort (λ x y, m_allocated (deref (h ++ [b]) x) <? m_allocated (deref (h ++ [b]) y))
          (l ++ [length h]))
    (<[length h := true]> m).
Proof.
  intros (Hlive & Hsorted & Hnd & Hreg & Hstale & Huse).
  rewrite Forall_forall in Hlive.
  assert (∀ x, x ∈ sort (λ x y, m_allocated (deref (h ++ [b]) x)
                            <? m_allocated (deref (h ++ [b]) y)) (l ++ [length h])
               ↔ x ∈ l ∨ x = length h) as Hmem.
  { intros x. rewrite sort_Permutation, elem_of_app, list_elem_of_singleton. done. }
  unfold pool_ok. rewrite length_app. simpl. split_and!.
  - rewrite Forall_forall. intros x [Hx| ->]%Hmem; [|lia]. apply Hlive in Hx. lia.
  - apply (sort_sorted _ (by_allocated (h ++ [b]))); unfold by_allocated; intros x y.
    + rewrite Z.ltb_lt. lia.
    + rewrite Z.ltb_ge. lia.
  - rewrite sort_Permutation. apply NoDup_app. split_and!; [done| |apply NoDup_singleton].
    intros x Hx Hx'%list_elem_of_singleton. apply Hlive in Hx. lia.
  - apply map_Forall_insert_2; [split; [apply Hmem; by right|done]|].
    eapply map_Forall_impl; [exact Hreg|]. intros x v [Hx Hv]. split; [|done].
    apply Hmem. by left.
  - rewrite Forall_forall in Hstale |- *. intros x [Hx| ->]%Hmem.
    + rewrite deref_app_l by (by apply Hlive).
      destruct (Hstale x Hx) as [Hs|Hs]; [left|by right].
      rewrite lookup_insert_ne; [done|]. apply Hlive in Hx. lia.
    + left. by rewrite lookup_insert_eq.
  - rewrite Forall_forall in Huse |- *. intros x [_ Hx]%elem_of_seq.
    destruct (decide (x < length h)%nat) as [Hlt|Hge].
    + rewrite deref_app_l by done. intros Hu. apply Hmem. left. apply Huse; [|done].
      apply elem_of_seq. lia.
    + intros _. apply Hmem. right. lia.
Qed.

Lemma pool_ok_drop h l m a i :
  pool_ok h l m → l !! i = Some a → m_in_use (deref h a) = false →
  pool_ok h (delete i l) (delete a m).
Proof.
  intros (Hlive & Hsorted & Hnd & Hreg & Hstale & Huse) Hi Hfree.
  assert (∀ x, x ∈ delete i l ↔ x ∈ l ∧ x ≠ a) as Hmem.
  { intros x. split.
    - intros Hx. split; [by eapply elem_of_sublist, sublist_delete|].
      intros ->. rewrite delete_take_drop in Hx.
      rewrite <-(take_drop_middle _ i a Hi) in Hnd.
      apply NoDup_app in Hnd as (_ & Hnd1 & Hnd2). apply NoDup_cons in Hnd2 as [? _].
      apply elem_of_app in Hx as [?|?]; [|done]. by apply (Hnd1 a); [|left].
    - intros [Hx Hne]. by apply (elem_of_delete_ne _ i x a). }
  unfold pool_ok. split_and!.
  - rewrite Forall_forall in Hlive |- *. intros x [Hx _]%Hmem. by apply Hlive.
  - by apply StronglySorted_delete.
  - eapply sublist_NoDup; [done|apply sublist_delete].
  - intros x v Hx. destruct (decide (x = a)) as [->|Hne].
    + by rewrite lookup_delete_eq in Hx.
    + rewrite lookup_delete_ne in Hx by done. destruct (Hreg x v Hx) as [Hxl Hv].
      split; [|done]. by apply Hmem.
  - rewrite Forall_forall in Hstale |- *. intros x [Hx Hne]%Hmem.
    rewrite lookup_delete_ne by done. by apply Hstale.
  - rewrite Forall_forall in Huse |- *. intros x Hx Hu. apply Hmem.
    split; [by apply Huse|]. intros ->. congruence.
Qed.

Lemma pool_inv_drop_buffers l s s' :
  pool_inv s → drop_buffers l s = Some s' →
  (∀ a, a ∈ l → m_in_use (deref (heap s) a) = false) →
  pool_inv s'.
Proof.
  revert s. induction l as [|a l IH]; intros s Hinv Hdrop Hfree; simpl in Hdrop.
  - by simplify_eq.
  - unfold drop_buffer, erase_find in Hdrop.
    destruct (find_index a (m_size_list s)) as [i|] eqn:Hi; [|done]. simpl in Hdrop.
    apply find_index_Some in Hi as [Hi _].
    apply IH in Hdrop; [done| |].
    + destruct Hinv as [Hinit Hok]. split; [done|]. simpl.
      apply pool_ok_drop; [done..|]. apply Hfree. by left.
    + simpl. intros x Hx. apply Hfree. by right.
Qed.

Lemma deref_alter f h k x :
  deref (alter f k h) x
  = if decide (x = k ∧ (k < length h)%nat) then f (deref h x) else deref h x.
Proof.
  unfold deref. case_decide as Hx.
  - destruct Hx as [-> Hlt]. rewrite list_lookup_alter_eq.
    apply lookup_lt_is_Some in Hlt as [b ->]. done.
  - destruct (decide (x = k)) as [->|Hne].
    + rewrite list_lookup_alter_eq.
      rewrite (lookup_ge_None_2 h k) by (apply Nat.nlt_ge; intros ?; by apply Hx). done.
    + by rewrite list_lookup_alter_ne.
Qed.

Section reset_heap.
Let reset_all (h : list Buffer) (keys : list nat) : list Buffer :=
  foldl (λ h a, alter Buffer_reset a h) h keys.

Lemma reset_all_length h keys : length (reset_all h keys) = length h.
Proof.
  revert h. induction keys as [|k keys IH]; intros h; simpl; [done|].
  unfold reset_all in IH. by rewrite IH, length_alter.
Qed.

Lemma reset_all_other h keys x : x ∉ keys → deref (reset_all h keys) x = deref h x.
Proof.
  revert h. induction keys as [|k keys IH]; intros h Hx; simpl; [done|].
  apply not_elem_of_cons in Hx as [Hne Hx]. unfold reset_all in IH.
  rewrite IH by done. rewrite deref_alter. case_decide as Hd; [by destruct Hd|done].
Qed.

Lemma reset_all_cleared h keys x :
  x ∈ keys ∨ (m_allocated (deref h x) = 0 ∧ m_in_use (deref h x) = false) →
  m_allocated (deref (reset_all h keys) x) = 0
  ∧ m_in_use (deref (reset_all h keys) x) = false.
Proof.
  revert h. induction keys as [|k keys IH]; intros h Hx; simpl.
  - destruct Hx as [Hx|Hx]; [by apply elem_of_nil in Hx|done].
  - unfold reset_all in IH. apply IH.
    destruct (decide (x ∈ keys)) as [|Hnk]; [by left|right].
    rewrite deref_alter. case_decide as Hd; [done|].
    destruct Hx as [Hx|Hx]; [|done].
    apply elem_of_cons in Hx as [->|Hx]; [|done].
    rewrite deref_ge; [done|]. apply Nat.nlt_ge. intros ?. by apply Hd.
Qed.
End reset_heap.

Lemma pool_ok_reset h l m :
  pool_ok h l m →
  pool_ok (foldl (λ h a, alter Buffer_reset a h) h ((map_to_list m).*1)) l ∅.
Proof.
  intros (Hlive & Hsorted & Hnd & Hreg & Hstale & Huse).
  set (keys := (map_to_list m).*1). set (h' := foldl _ h keys).
  assert (∀ x, x ∈ keys ↔ is_Some (m !! x)) as Hkeys.
  { intros x. apply (elem_of_registry_keys (mkState h 0 0 0 m 0 l true)). }
  assert (∀ x, x ∈ l → m_allocated (deref h' x) = 0) as Hzero.
  { intros x Hx. rewrite Forall_forall in Hstale.
    destruct (Hstale x Hx) as [Hs|Hs].
    - apply reset_all_cleared. left. by apply Hkeys.
    - destruct (decide (x ∈ keys)) as [Hk|Hk].
      + apply reset_all_cleared. by left.
      + unfold h'. by rewrite (reset_all_other h keys x). }
  unfold pool_ok. unfold h' at 1 4. rewrite !reset_all_length.
  split_and!; [done| |done| | |].
  - clear -Hzero. induction l as [|x l IH]; constructor.
    + apply IH. intros y Hy. apply Hzero. by right.
    + rewrite Forall_forall. intros y Hy. unfold by_allocated.
      rewrite !Hzero; [done|by right|by left].
  - apply map_Forall_empty.
  - rewrite Forall_forall. intros x Hx. right. by apply Hzero.
  - rewrite Forall_forall in Huse |- *. intros x Hx Hu.
    destruct (decide (x ∈ keys)) as [Hk|Hk].
    + destruct (reset_all_cleared h keys x) as [_ Hf]; [by left|].
      unfold h' in Hu. congruence.
    + unfold h' in Hu, Hx. rewrite (reset_all_other h keys x) in Hu by done.
      apply Huse; [|done]. by rewrite reset_all_length in Hx.
Qed.

Lemma pool_inv_initialize s :
  pool_ok (heap s) (m_size_list s) (m_buffers s) → pool_inv (initialize s).
Proof. by split. Qed.

Lemma pool_inv_initialize_startup : pool_inv (initialize startup).
Proof. apply pool_inv_initialize, pool_ok_startup. Qed.

Lemma pool_inv_set_policy p s : pool_inv s → pool_inv (set_policy p s).
Proof. done. Qed.

Lemma pool_inv_clear_policy p s : pool_inv s → pool_inv (clear_policy p s).
Proof. done. Qed.

Lemma pool_inv_set_policies ps s : pool_inv s → pool_inv (set_policies ps s).
Proof.
  unfold set_policies. revert s. induction ps as [|p ps IH]; intros s Hs; simpl; [done|].
  by apply IH, pool_inv_set_policy.
Qed.

Lemma pool_inv_set_cleanup_timeout seconds now s :
  pool_inv s → pool_inv (set_cleanup_timeout seconds now s).
Proof. done. Qed.

Lemma pool_inv_reset s : pool_inv s → pool_inv (reset s).
Proof. intros [Hinit Hok]. split; [done|]. simpl. by apply pool_ok_reset. Qed.

Lemma pool_inv_foreign_buffer s : pool_inv s → pool_inv (foreign_buffer s).2.
Proof. intros [Hinit Hok]. split; [done|]. simpl. by apply pool_ok_foreign. Qed.

Lemma pool_inv_reuse min_size a s :
  pool_inv s → a ∈ m_size_list s → pool_inv (reuse min_size a s).
Proof.
  intros [Hinit Hok] Ha. split; [done|]. simpl. apply pool_ok_store; [done| |done..].
  destruct Hok as (Hlive & _). rewrite Forall_forall in Hlive. by apply Hlive.
Qed.

Lemma pool_inv_grow min_size s : pool_inv s → pool_inv (grow min_size s).
Proof. intros [Hinit Hok]. split; [done|]. simpl. by apply pool_ok_grow. Qed.

Lemma pool_inv_mark_free a b now s :
  pool_inv s → heap s !! a = Some b → pool_inv (mark_free a b now s).
Proof.
  intros [Hinit Hok] Hb. split; [done|]. simpl. apply pool_ok_store; [done| | |done].
  - by eapply lookup_lt_Some.
  - simpl. by rewrite (deref_lookup _ _ _ Hb).
Qed.

(** A sweep is defined on every well-formed pool. *)
Lemma garbage_collect_total start_time s :
  pool_inv s → ∃ s', garbage_collect start_time s = Some s' ∧ pool_inv s'.
Proof.
  intros Hinv. unfold garbage_collect.
  destruct (drop_buffers_total (List.filter (too_old start_time s) (registry_keys s)) s)
    as [s' Hs'].
  - apply NoDup_buffers_to_drop.
  - intros a [[v Hv] _]%elem_of_buffers_to_drop.
    destruct Hinv as (_ & _ & _ & _ & Hreg & _). by apply (Hreg a v).
  - exists s'. split; [done|]. apply (pool_inv_drop_buffers _ _ _ Hinv Hs').
    intros a [_ Hold]%elem_of_buffers_to_drop. unfold too_old in Hold.
    apply andb_true_iff in Hold as [Hfree _]. by apply negb_true_iff.
Qed.

Lemma single_buffer_reuse min_size now s a :
  pool_inv s → m_size_list s !! find_free min_size s = Some a →
  single_buffer min_size now s = Some (Some a, reuse min_size a s).
Proof.
  intros (Hinit & _ & Hsorted & _) Ha.
  unfold single_buffer, single_buffer_unprotected. rewrite Hinit, Ha. simpl.
  destruct (find_free_found min_size s Hsorted a Ha) as [_ Hfit].
  destruct (Z.ltb_spec (m_allocated (deref (heap s) a)) min_size); [lia|done].
Qed.

Lemma single_buffer_grow min_size now s :
  m_initialized s = true → m_size_list s !! find_free min_size s = None →
  single_buffer min_size now s =
    if sweep_due now s
    then s' ← garbage_collect now (with_last_cleanup_check now (grow min_size s));
         Some (Some (length (heap s)), s')
    else Some (Some (length (heap s)), grow min_size s).
Proof.
  intros Hinit Hnone.
  unfold single_buffer, single_buffer_unprotected, sweep_due. rewrite Hinit, Hnone.
  change (policy_is_active DropOld (grow min_size s)) with (policy_is_active DropOld s).
  change (m_cleanup_timeout (grow min_size s)) with (m_cleanup_timeout s).
  change (m_last_cleanup_check (grow min_size s)) with (m_last_cleanup_check s).
  cbn [negb].
  destruct (policy_is_active DropOld s), (m_cleanup_timeout s =? 0),
    (m_cleanup_timeout s <? now - m_last_cleanup_check s); done.
Qed.

Lemma single_buffer_total min_size now s :
  pool_inv s →
  ∃ a s', single_buffer min_size now s = Some (Some a, s') ∧ pool_inv s'.
Proof.
  intros Hinv. destruct (m_size_list s !! find_free min_size s) as [a|] eqn:Ha.
  - exists a, (reuse min_size a s). split; [by apply single_buffer_reuse|].
    apply pool_inv_reuse; [done|]. by eapply list_elem_of_lookup_2.
  - rewrite single_buffer_grow by (done || apply Hinv).
    destruct (sweep_due now s).
    + destruct (garbage_collect_total now (with_last_cleanup_check now (grow min_size s)))
        as (s' & -> & Hs'); [by apply pool_inv_grow|].
      by exists (length (heap s)), s'.
    + exists (length (heap s)), (grow min_size s). split; [done|]. by apply pool_inv_grow.
Qed.

(** ** Facts about the calls *)

Lemma sweep_due_spec now s :
  sweep_due now s = true
  ↔ policy_is_active DropOld s = true
    ∧ m_cleanup_timeout s ≠ 0
    ∧ m_cleanup_timeout s < now - m_last_cleanup_check s.
Proof.
  unfold sweep_due. rewrite !andb_true_iff, negb_true_iff, Z.eqb_neq, Z.ltb_lt. tauto.
Qed.

(** The three ways a call of [single_buffer] can go. *)
Lemma single_buffer_cases s min_size now h s' :
  single_buffer min_size now s = Some (h, s') →
  (∃ a, m_size_list s !! find_free min_size s = Some a
        ∧ h = Some a ∧ s' = reuse min_size a s)
  ∨ (m_size_list s !! find_free min_size s = None ∧ sweep_due now s = false
     ∧ h = Some (length (heap s)) ∧ s' = grow min_size s)
  ∨ (m_size_list s !! find_free min_size s = None ∧ sweep_due now s = true
     ∧ h = Some (length (heap s))
     ∧ garbage_collect now (with_last_cleanup_check now (grow min_size s)) = Some s').
Proof.
  intros Hcall.
  destruct (m_initialized s) eqn:Hinit;
    [|by unfold single_buffer, single_buffer_unprotected in Hcall; rewrite Hinit in Hcall].
  destruct (m_size_list s !! find_free min_size s) as [a|] eqn:Ha.
  - left. exists a. split; [done|].
    unfold single_buffer, single_buffer_unprotected in Hcall.
    rewrite Hinit, Ha in Hcall. simpl in Hcall.
    destruct (m_allocated (deref (heap s) a) <? min_size); [done|].
    by injection Hcall as <- <-.
  - right. rewrite single_buffer_grow in Hcall by done.
    destruct (sweep_due now s); [right|left]; (split; [done|]); (split; [done|]).
    + destruct (garbage_collect _ _) as [s2|]; [|done]. simpl in Hcall.
      by injection Hcall as <- <-.
    + by injection Hcall as <- <-.
Qed.

Lemma Tracking_release_buffers_loop_inv buffers time i s s' :
  pool_inv s → Tracking.release_buffers_loop buffers time i s = Some s' → pool_inv s'.
Proof.
  revert i s. induction buffers as [|[a|] rest IH]; intros i s Hinv; simpl.
  - by intros [= <-].
  - destruct (heap s !! a) as [b|] eqn:Hb; [|done]. simpl. apply IH.
    destruct (m_in_use b); [|done]. by apply pool_inv_mark_free.
  - by apply IH.
Qed.

Lemma pool_inv_Tracking_release_buffer buffer now s r s' :
  pool_inv s → Tracking.release_buffer buffer now s = Some (r, s') → pool_inv s'.
Proof.
  intros Hinv. destruct buffer as [a|]; simpl; [|by intros [= <- <-]].
  destruct (heap s !! a) as [b|] eqn:Hb; [|done]. simpl.
  destruct (m_in_use b) eqn:Hu; intros [= <- <-]; [|done].
  apply pool_inv_mark_free; [|done]. destruct Hinv as [Hinit Hok]. split; [done|]. simpl.
  apply pool_ok_register; [done|]. apply (pool_ok_in_use _ _ _ _ Hok).
  by rewrite (deref_lookup _ _ _ Hb).
Qed.

(** With the test in the release functions every call keeps the pool
    well formed, whatever handles the caller passes. *)
Lemma pool_inv_Tracking_call c s s' :
  pool_inv s → call Tracking.release_buffer Tracking.release_buffers c s = Some s' →
  pool_inv s'.
Proof.
  intros Hinv Hc. destruct c; simpl in Hc.
  - injection Hc as <-. apply pool_inv_initialize, Hinv.
  - injection Hc as <-. by apply pool_inv_set_cleanup_timeout.
  - injection Hc as <-. by apply pool_inv_set_policy.
  - injection Hc as <-. by apply pool_inv_set_policies.
  - injection Hc as <-. by apply pool_inv_clear_policy.
  - injection Hc as <-. by apply pool_inv_reset.
  - injection Hc as <-. by apply pool_inv_foreign_buffer.
  - destruct (single_buffer_total min_size now s Hinv) as (a & s2 & Hcall & Hs2).
    rewrite Hcall in Hc. simpl in Hc. by simplify_eq.
  - destruct (Tracking.release_buffer buffer now s) as [[r s2]|] eqn:Hrel; [|done].
    simpl in Hc. simplify_eq. by eapply pool_inv_Tracking_release_buffer.
  - unfold Tracking.release_buffers in Hc.
    destruct (Tracking.release_buffers_loop _ _ _ _) as [s2|] eqn:Hloop; [|done].
    simpl in Hc. simplify_eq. by eapply Tracking_release_buffers_loop_inv.
Qed.

Lemma pool_inv_Tracking_run calls s s' :
  pool_inv s → run Tracking.release_buffer Tracking.release_buffers calls s = Some s' →
  pool_inv s'.
Proof.
  revert s. induction calls as [|c calls IH]; intros s Hinv; simpl.
  - by intros [= <-].
  - destruct (call _ _ c s) as [s1|] eqn:Hc; [|done]. simpl. apply IH.
    by eapply pool_inv_Tracking_call.
Qed.

(** Every state reached from start-up with [initialize()] called first. *)
Lemma pool_inv_Tracking_reached calls s' :
  run Tracking.release_buffer Tracking.release_buffers (CallInitialize :: calls) startup
  = Some s' →
  pool_inv s'.
Proof. simpl. apply pool_inv_Tracking_run, pool_inv_initialize_startup. Qed.

(** Without the test a release keeps the pool well formed when the handle is
    one of [m_size_list]. *)
Lemma pool_inv_Plain_release_buffer a now s r s' :
  pool_inv s → a ∈ m_size_list s →
  Plain.release_buffer (Some a) now s = Some (r, s') → pool_inv s'.
Proof.
  intros Hinv Ha. simpl. destruct (heap s !! a) as [b|] eqn:Hb; [|done]. simpl.
  intros [= <- <-]. apply pool_inv_mark_free; [|done].
  destruct Hinv as [Hinit Hok]. split; [done|]. simpl. by apply pool_ok_register.
Qed.

Lemma pool_inv_Plain_release_buffers buffers time s r s' :
  pool_inv s → Plain.release_buffers buffers time s = Some (r, s') → pool_inv s'.
Proof.
  unfold Plain.release_buffers. generalize 0%nat. intros i Hinv Hrel.
  destruct (Plain.release_buffers_loop buffers time i s) as [s2|] eqn:Hloop; [|done].
  simpl in Hrel. injection Hrel as _ <-.
  revert i s Hinv Hloop. induction buffers as [|[a|] rest IH]; intros i s Hinv; simpl.
  - by intros [= <-].
  - destruct (heap s !! a) as [b|] eqn:Hb; [|done]. simpl. apply IH.
    by apply pool_inv_mark_free.
  - done.
Qed.

(** On a handle whose record is in use the two listings release alike. *)
Lemma Plain_release_buffer_in_use a b now s :
  heap s !! a = Some b → m_in_use b = true →
  Plain.release_buffer (Some a) now s = Tracking.release_buffer (Some a) now s.
Proof. intros Hb Hu. simpl. rewrite Hb. simpl. by rewrite Hu. Qed.

(** * The claims *)

(** ** C1 *)

(** C1.  On a well-formed pool, for every requested size [N > 0],
    [single_buffer(N)] returns a handle to a record of capacity at least [N],
    marked in use, with [m_data_size = N].  The handle is either the record at
    which the search stopped (reuse) or a record created by the call (fresh
    allocation, when the search ran off the end of [m_size_list]). *)
Theorem single_buffer_contract s N now :
  pool_inv s → 0 < N →
  ∃ a s' b,
    single_buffer N now s = Some (Some a, s')
    ∧ heap s' !! a = Some b
    ∧ N ≤ m_allocated b
    ∧ m_in_use b = true
    ∧ m_data_size b = N
    ∧ (m_size_list s !! find_free N s = Some a
       ∨ m_size_list s !! find_free N s = None ∧ a = length (heap s)).
Proof.
  intros Hinv HN. destruct (m_size_list s !! find_free N s) as [a|] eqn:Ha.
  - (* reuse *)
    destruct Hinv as (Hinit & Hlive & Hsorted & Hrest).
    assert (a < length (heap s))%nat as Hlt.
    { rewrite Forall_forall in Hlive. by eapply Hlive, list_elem_of_lookup_2. }
    destruct (find_free_found N s Hsorted a Ha) as [_ Hfit].
    eexists a, (reuse N a s), _. split_and!.
    + apply single_buffer_reuse; [|done]. by split_and!.
    + simpl. by apply list_lookup_insert_eq.
    + done.
    + done.
    + done.
    + by left.
  - (* fresh allocation *)
    rewrite single_buffer_grow by (done || apply Hinv).
    assert (heap (grow N s) !! length (heap s)
            = Some (mkBuffer true N N (uint32_wrap (0 + 1)) 0 (Some N))) as Hnew.
    { simpl. rewrite lookup_app_r by lia. by rewrite Nat.sub_diag. }
    destruct (sweep_due now s).
    + destruct (garbage_collect_total now (with_last_cleanup_check now (grow N s)))
        as (s' & Hgc & _); [by apply pool_inv_grow|].
      rewrite Hgc. simpl. apply drop_buffers_spec in Hgc as (Heq & _).
      exists (length (heap s)), s', (mkBuffer true N N (uint32_wrap (0 + 1)) 0 (Some N)).
      split_and!; [done| |simpl; lia|done|done|by right].
      rewrite Heq. exact Hnew.
    + exists (length (heap s)), (grow N s),
        (mkBuffer true N N (uint32_wrap (0 + 1)) 0 (Some N)).
      split_and!; [done|exact Hnew|simpl; lia|done|done|by right].
Qed.

Lemma single_buffer_contract_witness :
  ∃ a s' b,
    single_buffer 100 0 (initialize startup) = Some (Some a, s')
    ∧ heap s' !! a = Some b
    ∧ 100 ≤ m_allocated b
    ∧ m_in_use b = true
    ∧ m_data_size b = 100
    ∧ (m_size_list (initialize startup) !! find_free 100 (initialize startup) = Some a
       ∨ m_size_list (initialize startup) !! find_free 100 (initialize startup) = None
         ∧ a = length (heap (initialize startup))).
Proof.
  apply (single_buffer_contract (initialize startup) 100 0).
  - apply (bool_decide_unpack _). vm_compute. reflexivity.
  - lia.
Defined.

(** ** C2 *)

(** C2.  On a well-formed pool the acquisition is first fit by capacity:
    [lower_bound] finds the first record of [m_size_list] whose capacity is at
    least [min_size]; the scan from there steps over records in use only and
    stops at a free record, which the call returns and which has the least
    capacity among the free records that are large enough; a call that
    returns a record not in [m_size_list] (a fresh one) found no free record
    that is large enough.  In the scenario the second acquisition returns the
    first record and one buffer is allocated. *)
Theorem first_fit_by_capacity s min_size now :
  pool_inv s →
  let v := m_size_list s in
  let lb := lower_bound (λ buffer, m_allocated (deref (heap s) buffer) <? min_size) v in
  let iter := find_free min_size s in
  (∀ j b, v !! j = Some b →
     (j < lb)%nat ↔ m_allocated (deref (heap s) b) < min_size)
  ∧ (lb ≤ iter)%nat
  ∧ (∀ j b, (lb ≤ j < iter)%nat → v !! j = Some b →
       m_in_use (deref (heap s) b) = true)
  ∧ (∀ a, v !! iter = Some a →
       m_in_use (deref (heap s) a) = false
       ∧ single_buffer min_size now s = Some (Some a, reuse min_size a s)
       ∧ ∀ b, b ∈ v → m_in_use (deref (heap s) b) = false →
              min_size ≤ m_allocated (deref (heap s) b) →
              m_allocated (deref (heap s) a) ≤ m_allocated (deref (heap s) b))
  ∧ (∀ a s', single_buffer min_size now s = Some (Some a, s') → a ∉ v →
       ∀ b, b ∈ v →
         m_in_use (deref (heap s) b) = true
         ∨ m_allocated (deref (heap s) b) < min_size)
  ∧ (∀ t1 t2 t3,
       ∃ A s3,
         acquire_release_acquire Plain.release_buffer t1 t2 t3 = Some (A, A, s3)
         ∧ buffers_available s3 = 1)
  ∧ (∀ t1 t2 t3,
       ∃ A s3,
         acquire_release_acquire Tracking.release_buffer t1 t2 t3 = Some (A, A, s3)
         ∧ buffers_available s3 = 1).
Proof.
  intros Hinv v lb iter. pose proof Hinv as (Hinit & Hlive & Hsorted & Hrest).
  split_and!.
  - intros j b. by apply lower_bound_by_allocated.
  - by apply find_free_ge.
  - intros j b. by apply find_free_skipped.
  - intros a Ha. split_and!.
    + by apply (find_free_found min_size s Hsorted a).
    + by apply single_buffer_reuse.
    + intros b. by apply find_free_least.
  - intros a s' Hcall Hfresh b Hb.
    destruct (v !! iter) as [a'|] eqn:Ha'.
    + rewrite (single_buffer_reuse min_size now s a' Hinv Ha') in Hcall.
      injection Hcall as -> _. destruct Hfresh. by eapply list_elem_of_lookup_2.
    + destruct (find_free_none min_size s Hsorted b Ha' Hb); [by right|by left].
  - intros t1 t2 t3. by eexists _, _.
  - intros t1 t2 t3. by eexists _, _.
Qed.

Lemma example_pool_reached :
  ('(A, s1) ← single_buffer 100 0 (initialize startup);
   '(_, s2) ← single_buffer 200 0 s1;
   '(_, s3) ← Tracking.release_buffer A 5 s2;
   Some s3) = Some example_pool.
Proof. reflexivity. Qed.

Lemma pool_inv_example_pool : pool_inv example_pool.
Proof. apply (bool_decide_unpack _). vm_compute. reflexivity. Qed.

Lemma first_fit_by_capacity_witness :
  pool_inv example_pool
  ∧ ∀ a, m_size_list example_pool !! find_free 50 example_pool = Some a →
      m_in_use (deref (heap example_pool) a) = false
      ∧ single_buffer 50 9 example_pool = Some (Some a, reuse 50 a example_pool)
      ∧ ∀ b, b ∈ m_size_list example_pool →
             m_in_use (deref (heap example_pool) b) = false →
             50 ≤ m_allocated (deref (heap example_pool) b) →
             m_allocated (deref (heap example_pool) a)
             ≤ m_allocated (deref (heap example_pool) b).
Proof.
  assert (pool_inv example_pool) as Hinv
    by (apply (bool_decide_unpack _); vm_compute; reflexivity).
  split; [exact Hinv|].
  exact (proj1 (proj2 (proj2 (proj2 (first_fit_by_capacity example_pool 50 9 Hinv))))).
Defined.

(** ** C3 *)

(** [reset] empties the registry and resets the registered records, and leaves
    [m_size_list] and [m_buffers_in_use] as they are. *)
Lemma reset_frame s :
  m_buffers (reset s) = ∅
  ∧ m_size_list (reset s) = m_size_list s
  ∧ buffers_available (reset s) = buffers_available s
  ∧ m_buffers_in_use (reset s) = m_buffers_in_use s.
Proof. done. Qed.

(** The number of allocated buffers does not go down in an acquisition that
    runs no sweep, nor in a release. *)
Lemma buffers_available_grows s min_size now h s' :
  single_buffer min_size now s = Some (h, s') → sweep_due now s = false →
  buffers_available s ≤ buffers_available s'.
Proof.
  intros Hcall Hdue.
  destruct (single_buffer_cases s min_size now h s' Hcall)
    as [(a & Ha & -> & ->)|[(Ha & _ & _ & ->)|(_ & Hdue' & _)]]; [done| |congruence].
  unfold buffers_available. simpl. rewrite sort_Permutation, length_app. simpl. lia.
Qed.

(** C3 (the code departs from the claim).  After [initialize()],
    [single_buffer(100)] and [reset()], the registry is empty but
    [m_size_list] still holds the record, now with capacity 0, and
    [buffers_available()] is 1; [m_buffers_in_use] is still 1. *)
Theorem reset_leaves_size_list :
  ∃ h s1,
    single_buffer 100 0 (initialize startup) = Some (h, s1)
    ∧ m_buffers (reset s1) = ∅
    ∧ m_size_list (reset s1) = [0%nat]
    ∧ buffers_available (reset s1) = 1
    ∧ heap (reset s1) = [mkBuffer false 0 0 1 0 None]
    ∧ m_buffers_in_use (reset s1) = 1.
Proof. eexists _, _. split; [reflexivity|]. by split_and!. Qed.

(** ** C4 *)

Lemma one_in_use_reached :
  single_buffer 100 0 (initialize startup) = Some (Some 0%nat, one_in_use).
Proof. reflexivity. Qed.

(** C4 (the listing without the test departs from the claim).  Releasing the
    null handle has no defined result.  Releasing [A] a second time changes
    the pool: the counter goes from 0 to -1 and [m_last_used] is stamped
    again.  Releasing a [Buffer] that the caller made itself enters it into
    the registry, stamps it and decrements the counter. *)
Theorem Plain_release_buffer_not_tolerant :
  Plain.release_buffer None 5 one_in_use = None
  ∧ (∃ s2 s3,
       Plain.release_buffer (Some 0%nat) 5 one_in_use = Some (true, s2)
       ∧ Plain.release_buffer (Some 0%nat) 7 s2 = Some (true, s3)
       ∧ s3 ≠ s2
       ∧ m_buffers_in_use s2 = 0 ∧ m_buffers_in_use s3 = -1
       ∧ m_last_used (deref (heap s2) 0) = 5 ∧ m_last_used (deref (heap s3) 0) = 7)
  ∧ (∃ F s s',
       foreign_buffer one_in_use = (F, s)
       ∧ Plain.release_buffer F 5 s = Some (true, s')
       ∧ m_buffers s !! 1%nat = None ∧ m_buffers s' !! 1%nat = Some true
       ∧ m_buffers_in_use s = 1 ∧ m_buffers_in_use s' = 0
       ∧ m_last_used (deref (heap s') 1) = 5).
Proof.
  split_and!.
  - reflexivity.
  - eexists _, _. split_and!; [reflexivity|reflexivity| |done..].
    intros Heq. by apply (f_equal m_buffers_in_use) in Heq.
  - eexists _, _, _. split_and!; [reflexivity|reflexivity|done..].
Qed.

(** The listing with the test does what the claim says: on a null handle, on
    a handle whose record is free and on a handle whose record is not in
    [m_size_list] the release reports success and changes nothing; a release
    of a live handle always reports success; releasing a handle a second time
    changes nothing. *)
Lemma Tracking_release_buffer_tolerant s now :
  Tracking.release_buffer None now s = Some (true, s)
  ∧ (∀ a b, heap s !! a = Some b → m_in_use b = false →
       Tracking.release_buffer (Some a) now s = Some (true, s))
  ∧ (∀ a, pool_inv s → (a < length (heap s))%nat → a ∉ m_size_list s →
       Tracking.release_buffer (Some a) now s = Some (true, s))
  ∧ (∀ a, (a < length (heap s))%nat →
       ∃ s', Tracking.release_buffer (Some a) now s = Some (true, s'))
  ∧ (∀ buffer r s' now',
       Tracking.release_buffer buffer now s = Some (r, s') →
       r = true ∧ Tracking.release_buffer buffer now' s' = Some (true, s')).
Proof.
  assert (∀ a b, heap s !! a = Some b → m_in_use b = false →
            Tracking.release_buffer (Some a) now s = Some (true, s)) as Hfree.
  { intros a b Hb Hf. simpl. rewrite Hb. simpl. by rewrite Hf. }
  split_and!; [done|done| | |].
  - intros a [_ Hok] Hlt Hnot. apply lookup_lt_is_Some in Hlt as [b Hb].
    apply (Hfree a b Hb). destruct (m_in_use b) eqn:Hu; [|done].
    destruct Hnot. apply (pool_ok_in_use _ _ _ _ Hok). by rewrite (deref_lookup _ _ _ Hb).
  - intros a [b Hb]%lookup_lt_is_Some. simpl. rewrite Hb. simpl.
    destruct (m_in_use b); by eexists.
  - intros [a|] r s' now' Hrel; simpl in Hrel; [|by injection Hrel as <- <-].
    destruct (heap s !! a) as [b|] eqn:Hb; [|done]. simpl in Hrel.
    destruct (m_in_use b) eqn:Hu; injection Hrel as <- <-; (split; [done|]).
    + simpl. rewrite list_lookup_insert_eq by (by eapply lookup_lt_Some). done.
    + simpl. rewrite Hb. simpl. by rewrite Hu.
Qed.

(** ** C5 *)

(** C5 (the listing without the test departs from the claim).  After
    [A = single_buffer(100)], [release_buffer(A)], [release_buffer(A)] no
    record is in use but [m_buffers_in_use] is -1, which [buffers_in_use()]
    reports as 2^64 - 1. *)
Theorem Plain_counter_not_accurate :
  ∃ s2 s3,
    Plain.release_buffer (Some 0%nat) 5 one_in_use = Some (true, s2)
    ∧ Plain.release_buffer (Some 0%nat) 7 s2 = Some (true, s3)
    ∧ records_in_use s3 = 0
    ∧ m_buffers_in_use s3 = -1
    ∧ buffers_in_use s3 = 2 ^ 64 - 1.
Proof. eexists _, _. split_and!; reflexivity. Qed.

Lemma in_use_count_insert h a b b' :
  h !! a = Some b →
  Z.of_nat (length (List.filter m_in_use (<[a := b']> h)))
  = Z.of_nat (length (List.filter m_in_use h))
    + (if m_in_use b' then 1 else 0) - (if m_in_use b then 1 else 0).
Proof.
  intros Hb. rewrite insert_take_drop by (by eapply lookup_lt_Some).
  rewrite <-(take_drop_middle h a b Hb) at 3.
  rewrite !List.filter_app, !length_app. simpl.
  destruct (m_in_use b), (m_in_use b'); simpl; lia.
Qed.

Lemma in_use_count_app h b :
  Z.of_nat (length (List.filter m_in_use (h ++ [b])))
  = Z.of_nat (length (List.filter m_in_use h)) + (if m_in_use b then 1 else 0).
Proof. rewrite List.filter_app, length_app. simpl. destruct (m_in_use b); simpl; lia. Qed.

(** Every acquisition adds one to the counter and one record in use. *)
Lemma single_buffer_counter s min_size now h s' :
  pool_inv s → single_buffer min_size now s = Some (h, s') →
  m_buffers_in_use s' = m_buffers_in_use s + 1
  ∧ records_in_use s' = records_in_use s + 1.
Proof.
  intros Hinv Hcall. pose proof Hinv as (Hinit & Hlive & Hsorted & Hrest).
  destruct (single_buffer_cases s min_size now h s' Hcall)
    as [(a & Ha & -> & ->)|[(Ha & _ & _ & ->)|(Ha & _ & _ & Hgc)]].
  - split; [done|]. unfold records_in_use. simpl.
    destruct (find_free_found min_size s Hsorted a Ha) as [Hfree _].
    assert (is_Some (heap s !! a)) as [b Hb].
    { apply lookup_lt_is_Some. rewrite Forall_forall in Hlive.
      by eapply Hlive, list_elem_of_lookup_2. }
    rewrite (in_use_count_insert _ _ b) by done. simpl.
    rewrite (deref_lookup _ _ _ Hb) in Hfree. rewrite Hfree. lia.
  - split; [done|]. unfold records_in_use. simpl. by rewrite in_use_count_app.
  - apply drop_buffers_spec in Hgc as (-> & _). split; [done|].
    unfold records_in_use. simpl. by rewrite in_use_count_app.
Qed.

(** A release with the test takes one from the counter exactly when the
    record was in use. *)
Lemma Tracking_release_buffer_counter buffer now s r s' :
  Tracking.release_buffer buffer now s = Some (r, s') →
  let effective := match buffer with
                   | Some a => m_in_use (deref (heap s) a)
                   | None => false
                   end in
  m_buffers_in_use s' = m_buffers_in_use s - (if effective then 1 else 0)
  ∧ records_in_use s' = records_in_use s - (if effective then 1 else 0).
Proof.
  destruct buffer as [a|]; simpl; [|intros [= <- <-]; lia].
  destruct (heap s !! a) as [b|] eqn:Hb; [|done]. simpl.
  rewrite (deref_lookup _ _ _ Hb).
  destruct (m_in_use b) eqn:Hu; intros [= <- <-]; [|lia].
  split; [done|]. unfold records_in_use. simpl.
  rewrite (in_use_count_insert _ _ b) by done. simpl. rewrite Hu. lia.
Qed.

Lemma Tracking_release_buffers_loop_counter buffers time i s s' :
  counter_ok s → Tracking.release_buffers_loop buffers time i s = Some s' →
  counter_ok s'.
Proof.
  revert i s. induction buffers as [|[a|] rest IH]; intros i s Hok; simpl.
  - by intros [= <-].
  - destruct (heap s !! a) as [b|] eqn:Hb; [|done]. simpl. apply IH.
    destruct (m_in_use b) eqn:Hu; [|done].
    unfold counter_ok, records_in_use in *. simpl.
    rewrite (in_use_count_insert _ _ b) by done. simpl. rewrite Hu. lia.
  - by apply IH.
Qed.

(** With the test in the release functions the counter is accurate after
    every sequence of acquisitions and releases. *)
Lemma Tracking_counter_accurate calls s s' :
  pool_inv s → counter_ok s →
  forallb acquire_or_release calls = true →
  run Tracking.release_buffer Tracking.release_buffers calls s = Some s' →
  counter_ok s'.
Proof.
  revert s. induction calls as [|c calls IH]; intros s Hinv Hok Hcalls; simpl.
  - by intros [= <-].
  - simpl in Hcalls. apply andb_true_iff in Hcalls as [Hc' Hcalls].
    destruct (call _ _ c s) as [s1|] eqn:Hc; [|done]. simpl.
    apply IH; [by eapply pool_inv_Tracking_call| |done].
    destruct c as [| | | | | | |min_size now|buffer now|buffers time]; try done;
      simpl in Hc.
    + destruct (single_buffer min_size now s) as [[h s2]|] eqn:Hcall; [|done].
      simpl in Hc. simplify_eq.
      destruct (single_buffer_counter _ _ _ _ _ Hinv Hcall) as [Hc1 Hc2].
      unfold counter_ok in *. lia.
    + destruct (Tracking.release_buffer buffer now s) as [[r s2]|] eqn:Hrel; [|done].
      simpl in Hc. simplify_eq.
      destruct (Tracking_release_buffer_counter _ _ _ _ _ Hrel) as [Hc1 Hc2].
      unfold counter_ok in *. lia.
    + unfold Tracking.release_buffers in Hc.
      destruct (Tracking.release_buffers_loop _ _ _ _) as [s2|] eqn:Hloop; [|done].
      simpl in Hc. simplify_eq. by eapply Tracking_release_buffers_loop_counter.
Qed.

Lemma Tracking_counter_accurate_initial calls s' :
  forallb acquire_or_release calls = true →
  run Tracking.release_buffer Tracking.release_buffers calls (initialize startup) = Some s' →
  m_buffers_in_use s' = records_in_use s'.
Proof.
  intros Hcalls Hrun.
  by apply (Tracking_counter_accurate calls (initialize startup) s'
              pool_inv_initialize_startup).
Qed.

(** ** C6 *)

(** C6 (counterexample).  [single_buffer(0)] is not rejected.  On a fresh pool
    it allocates a record of capacity 0 and returns it in use; on a pool with
    a free record of 100 bytes it returns that record. *)
Lemma single_buffer_zero_not_rejected :
  single_buffer 0 0 (initialize startup)
  = Some (Some 0%nat,
          mkState [mkBuffer true 0 0 1 0 (Some 0)] 0 0 1 {[0%nat := true]} 1
                  [0%nat] true)
  ∧ single_buffer 0 9 example_pool
    = Some (Some 0%nat,
            mkState [mkBuffer true 0 100 2 5 (Some 100);
                     mkBuffer true 200 200 1 0 (Some 200)]
                    0 0 1 {[0%nat := true; 1%nat := true]} 2 [0%nat; 1%nat] true).
Proof. split; reflexivity. Qed.

(** C6 (amended).  On a well-formed pool [single_buffer(0)] returns a handle to
    a record in use with [m_data_size = 0]: the free record at which the
    search stopped, or, when the search ran off the end, a fresh record of
    capacity 0. *)
Theorem single_buffer_zero_accepted s now :
  pool_inv s →
  ∃ a s' b,
    single_buffer 0 now s = Some (Some a, s')
    ∧ heap s' !! a = Some b
    ∧ m_in_use b = true
    ∧ m_data_size b = 0
    ∧ ((m_size_list s !! find_free 0 s = Some a
        ∧ m_in_use (deref (heap s) a) = false
        ∧ m_allocated b = m_allocated (deref (heap s) a))
       ∨ (m_size_list s !! find_free 0 s = None
          ∧ a = length (heap s) ∧ m_allocated b = 0 ∧ m_buffer b = Some 0)).
Proof.
  intros Hinv. destruct (m_size_list s !! find_free 0 s) as [a|] eqn:Ha.
  - pose proof Hinv as (Hinit & Hlive & Hsorted & Hrest).
    assert (a < length (heap s))%nat as Hlt.
    { rewrite Forall_forall in Hlive. by eapply Hlive, list_elem_of_lookup_2. }
    destruct (find_free_found 0 s Hsorted a Ha) as [Hfree _].
    eexists a, (reuse 0 a s), _. split_and!.
    + by apply single_buffer_reuse.
    + simpl. by apply list_lookup_insert_eq.
    + done.
    + done.
    + by left.
  - rewrite single_buffer_grow by (done || apply Hinv).
    assert (heap (grow 0 s) !! length (heap s)
            = Some (mkBuffer true 0 0 (uint32_wrap (0 + 1)) 0 (Some 0))) as Hnew.
    { simpl. rewrite lookup_app_r by lia. by rewrite Nat.sub_diag. }
    destruct (sweep_due now s).
    + destruct (garbage_collect_total now (with_last_cleanup_check now (grow 0 s)))
        as (s' & Hgc & _); [by apply pool_inv_grow|].
      rewrite Hgc. simpl. apply drop_buffers_spec in Hgc as (Heq & _).
      exists (length (heap s)), s', (mkBuffer true 0 0 (uint32_wrap (0 + 1)) 0 (Some 0)).
      split_and!; [done| |done|done|by right].
      rewrite Heq. exact Hnew.
    + exists (length (heap s)), (grow 0 s),
        (mkBuffer true 0 0 (uint32_wrap (0 + 1)) 0 (Some 0)).
      split_and!; [done|exact Hnew|done|done|by right].
Qed.

Lemma single_buffer_zero_accepted_witness :
  pool_inv example_pool
  ∧ ∃ a s' b,
    single_buffer 0 9 example_pool = Some (Some a, s')
    ∧ heap s' !! a = Some b
    ∧ m_in_use b = true
    ∧ m_data_size b = 0
    ∧ ((m_size_list example_pool !! find_free 0 example_pool = Some a
        ∧ m_in_use (deref (heap example_pool) a) = false
        ∧ m_allocated b = m_allocated (deref (heap example_pool) a))
       ∨ (m_size_list example_pool !! find_free 0 example_pool = None
          ∧ a = length (heap example_pool) ∧ m_allocated b = 0 ∧ m_buffer b = Some 0)).
Proof.
  assert (pool_inv example_pool) as Hinv
    by (apply (bool_decide_unpack _); vm_compute; reflexivity).
  split; [exact Hinv|]. exact (single_buffer_zero_accepted example_pool 9 Hinv).
Defined.

(** ** C7 *)

(** C7.  On a well-formed pool a sweep is defined, and a record leaves the
    registry or [m_size_list] only if it is not in use and has been idle for
    longer than [m_cleanup_timeout]; a record that is in use, or whose idle
    time does not exceed the timeout, keeps its place in both.  No record is
    changed, the registry entries and the order of the records that stay are
    kept, and so are the counter and the configuration. *)
Theorem garbage_collect_only_idle_free s start_time :
  pool_inv s →
  ∃ s',
    garbage_collect start_time s = Some s'
    ∧ (∀ a, is_Some (m_buffers s !! a) → m_buffers s' !! a = None →
         m_in_use (deref (heap s) a) = false
         ∧ m_cleanup_timeout s < start_time - m_last_used (deref (heap s) a))
    ∧ (∀ a, a ∈ m_size_list s → a ∉ m_size_list s' →
         m_in_use (deref (heap s) a) = false
         ∧ m_cleanup_timeout s < start_time - m_last_used (deref (heap s) a))
    ∧ (∀ a, m_in_use (deref (heap s) a) = true
            ∨ start_time - m_last_used (deref (heap s) a) ≤ m_cleanup_timeout s →
         m_buffers s' !! a = m_buffers s !! a
         ∧ (a ∈ m_size_list s → a ∈ m_size_list s'))
    ∧ heap s' = heap s
    ∧ (∀ a v, m_buffers s' !! a = Some v → m_buffers s !! a = Some v)
    ∧ m_size_list s' `sublist_of` m_size_list s
    ∧ m_buffers_in_use s' = m_buffers_in_use s
    ∧ m_cleanup_timeout s' = m_cleanup_timeout s
    ∧ m_last_cleanup_check s' = m_last_cleanup_check s
    ∧ m_policies s' = m_policies s.
Proof.
  intros Hinv. destruct (garbage_collect_total start_time s Hinv) as (s' & Hgc & _).
  exists s'. split; [done|]. unfold garbage_collect in Hgc.
  set (l := List.filter (too_old start_time s) (registry_keys s)) in *.
  apply drop_buffers_spec in Hgc as (Heq & Hreg & Hsub & Hkeep & _).
  assert (∀ a, a ∈ l → m_in_use (deref (heap s) a) = false
                       ∧ m_cleanup_timeout s < start_time - m_last_used (deref (heap s) a))
    as Hold.
  { intros a [_ Hold]%elem_of_buffers_to_drop. unfold too_old in Hold.
    apply andb_true_iff in Hold as [Hfree Hidle].
    apply negb_true_iff in Hfree. apply Z.ltb_lt in Hidle. done. }
  split_and!.
  - intros a [v Hv] Hgone. apply Hold. rewrite Hreg in Hgone.
    case_decide; [done|congruence].
  - intros a Ha Hgone. apply Hold. destruct (decide (a ∈ l)); [done|].
    destruct Hgone. by apply Hkeep.
  - intros a Hstay.
    assert (a ∉ l) as Hnl.
    { intros [Hfree Hidle]%Hold. destruct Hstay; [congruence|lia]. }
    split; [|by intros; apply Hkeep]. rewrite Hreg. by rewrite decide_False.
  - by rewrite Heq.
  - intros a v. rewrite Hreg. by case_decide.
  - done.
  - by rewrite Heq.
  - by rewrite Heq.
  - by rewrite Heq.
  - by rewrite Heq.
Qed.

Lemma example_idle_pool_reached :
  ('(A, s1) ← single_buffer 8 0 (set_cleanup_timeout 10 0 (initialize startup));
   '(B, s2) ← single_buffer 16 0 s1;
   '(_, s3) ← single_buffer 32 0 s2;
   '(_, s4) ← Tracking.release_buffer A 5 s3;
   '(_, s5) ← Tracking.release_buffer B 100 s4;
   Some s5) = Some example_idle_pool.
Proof. reflexivity. Qed.

Lemma garbage_collect_only_idle_free_witness :
  pool_inv example_idle_pool
  ∧ ∃ s',
    garbage_collect 105 example_idle_pool = Some s'
    ∧ (∀ a, is_Some (m_buffers example_idle_pool !! a) → m_buffers s' !! a = None →
         m_in_use (deref (heap example_idle_pool) a) = false
         ∧ m_cleanup_timeout example_idle_pool
           < 105 - m_last_used (deref (heap example_idle_pool) a))
    ∧ (∀ a, a ∈ m_size_list example_idle_pool → a ∉ m_size_list s' →
         m_in_use (deref (heap example_idle_pool) a) = false
         ∧ m_cleanup_timeout example_idle_pool
           < 105 - m_last_used (deref (heap example_idle_pool) a))
    ∧ (∀ a, m_in_use (deref (heap example_idle_pool) a) = true
            ∨ 105 - m_last_used (deref (heap example_idle_pool) a)
              ≤ m_cleanup_timeout example_idle_pool →
         m_buffers s' !! a = m_buffers example_idle_pool !! a
         ∧ (a ∈ m_size_list example_idle_pool → a ∈ m_size_list s'))
    ∧ heap s' = heap example_idle_pool
    ∧ (∀ a v, m_buffers s' !! a = Some v → m_buffers example_idle_pool !! a = Some v)
    ∧ m_size_list s' `sublist_of` m_size_list example_idle_pool
    ∧ m_buffers_in_use s' = m_buffers_in_use example_idle_pool
    ∧ m_cleanup_timeout s' = m_cleanup_timeout example_idle_pool
    ∧ m_last_cleanup_check s' = m_last_cleanup_check example_idle_pool
    ∧ m_policies s' = m_policies example_idle_pool.
Proof.
  assert (pool_inv example_idle_pool) as Hinv
    by (apply (bool_decide_unpack _); vm_compute; reflexivity).
  split; [exact Hinv|].
  exact (garbage_collect_only_idle_free example_idle_pool 105 Hinv).
Defined.

Example garbage_collect_example :
  garbage_collect 105 example_idle_pool
  = Some (mkState (heap example_idle_pool) 10 0 3 {[1%nat := true; 2%nat := true]} 1
                  [1%nat; 2%nat] true).
Proof. reflexivity. Qed.

(** ** C8 *)

Lemma not_evicted_reuse min_size a s : ¬ evicted s (reuse min_size a s).
Proof. intros [(x & Hx & Hnx)|(x & [v Hv] & Hnx)]; simpl in *; [done|congruence]. Qed.

Lemma not_evicted_grow min_size s : ¬ evicted s (grow min_size s).
Proof.
  intros [(x & Hx & Hnx)|(x & [v Hv] & Hnx)]; simpl in *.
  - destruct Hnx. rewrite sort_Permutation. apply elem_of_app. by left.
  - destruct (decide (x = length (heap s))) as [->|Hne].
    + by rewrite lookup_insert_eq in Hnx.
    + rewrite lookup_insert_ne in Hnx by done. congruence.
Qed.

Lemma not_evicted_mark_free a b now s : ¬ evicted s (mark_free a b now s).
Proof. intros [(x & Hx & Hnx)|(x & [v Hv] & Hnx)]; simpl in *; [done|congruence]. Qed.

Lemma not_evicted_register a s : ¬ evicted s (with_buffers (<[a := true]> (m_buffers s)) s).
Proof.
  intros [(x & Hx & Hnx)|(x & [v Hv] & Hnx)]; simpl in *; [done|].
  destruct (decide (x = a)) as [->|Hne].
  - by rewrite lookup_insert_eq in Hnx.
  - rewrite lookup_insert_ne in Hnx by done. congruence.
Qed.

Lemma Plain_release_buffers_loop_frame buffers time i s s' :
  Plain.release_buffers_loop buffers time i s = Some s' →
  m_size_list s' = m_size_list s ∧ m_buffers s' = m_buffers s
  ∧ m_last_cleanup_check s' = m_last_cleanup_check s
  ∧ m_cleanup_timeout s' = m_cleanup_timeout s ∧ m_policies s' = m_policies s
  ∧ m_initialized s' = m_initialized s ∧ length (heap s') = length (heap s).
Proof.
  revert i s. induction buffers as [|[a|] rest IH]; intros i s; simpl; [by intros [= <-]| |done].
  destruct (heap s !! a) as [b|]; [|done]. simpl. intros Hs'.
  apply IH in Hs'. simpl in Hs'. by rewrite length_insert in Hs'.
Qed.

Lemma Tracking_release_buffers_loop_frame buffers time i s s' :
  Tracking.release_buffers_loop buffers time i s = Some s' →
  m_size_list s' = m_size_list s ∧ m_buffers s' = m_buffers s
  ∧ m_last_cleanup_check s' = m_last_cleanup_check s
  ∧ m_cleanup_timeout s' = m_cleanup_timeout s ∧ m_policies s' = m_policies s
  ∧ m_initialized s' = m_initialized s ∧ length (heap s') = length (heap s).
Proof.
  revert i s. induction buffers as [|[a|] rest IH]; intros i s; simpl; [by intros [= <-]| |by apply IH].
  destruct (heap s !! a) as [b|]; [|done]. simpl. intros Hs'.
  apply IH in Hs'. destruct (m_in_use b); simpl in Hs'; [|done].
  by rewrite length_insert in Hs'.
Qed.

(** C8.  A call of [single_buffer] is a reuse, or a fresh allocation, or a
    fresh allocation followed by [garbage_collect]; the last happens exactly
    when [DropOld] is set, [m_cleanup_timeout] is not zero and more than
    [m_cleanup_timeout] has passed since [m_last_cleanup_check].  Hence a
    record leaves the pool, or [m_last_cleanup_check] changes, only in an
    acquisition that allocated a fresh record under these three conditions;
    with a timeout of 0 nothing is ever evicted; and a release, single or
    batch, with or without the test, evicts nothing. *)
Theorem eviction_only_on_growth :
  (∀ s min_size now h s',
     single_buffer min_size now s = Some (h, s') →
     ((∃ a, m_size_list s !! find_free min_size s = Some a
            ∧ h = Some a ∧ s' = reuse min_size a s)
      ∨ (m_size_list s !! find_free min_size s = None ∧ sweep_due now s = false
         ∧ s' = grow min_size s)
      ∨ (m_size_list s !! find_free min_size s = None ∧ sweep_due now s = true
         ∧ garbage_collect now (with_last_cleanup_check now (grow min_size s))
           = Some s'))
     ∧ (evicted s s' ∨ m_last_cleanup_check s' ≠ m_last_cleanup_check s →
        m_size_list s !! find_free min_size s = None
        ∧ policy_is_active DropOld s = true
        ∧ m_cleanup_timeout s ≠ 0
        ∧ m_cleanup_timeout s < now - m_last_cleanup_check s)
     ∧ (m_cleanup_timeout s = 0 →
        ¬ evicted s s' ∧ m_last_cleanup_check s' = m_last_cleanup_check s))
  ∧ (∀ buffer now s r s',
       Plain.release_buffer buffer now s = Some (r, s')
       ∨ Tracking.release_buffer buffer now s = Some (r, s') →
       ¬ evicted s s' ∧ m_last_cleanup_check s' = m_last_cleanup_check s)
  ∧ (∀ buffers time s r s',
       Plain.release_buffers buffers time s = Some (r, s')
       ∨ Tracking.release_buffers buffers time s = Some (r, s') →
       ¬ evicted s s' ∧ m_last_cleanup_check s' = m_last_cleanup_check s).
Proof.
  split_and!.
  - intros s min_size now h s' Hcall.
    assert ((∃ a, m_size_list s !! find_free min_size s = Some a
                  ∧ h = Some a ∧ s' = reuse min_size a s)
            ∨ (m_size_list s !! find_free min_size s = None ∧ sweep_due now s = false
               ∧ s' = grow min_size s)
            ∨ (m_size_list s !! find_free min_size s = None ∧ sweep_due now s = true
               ∧ garbage_collect now (with_last_cleanup_check now (grow min_size s))
                 = Some s')) as Hcases.
    { destruct (single_buffer_cases s min_size now h s' Hcall)
        as [?|[(? & ? & _ & ?)|(? & ? & _ & ?)]]; auto. }
    split; [exact Hcases|].
    destruct Hcases as [(a & Ha & -> & ->)|[(Ha & Hdue & ->)|(Ha & Hdue & Hgc)]].
    + split.
      * intros [Hev|Hchk]; [by apply not_evicted_reuse in Hev|done].
      * intros _. split; [apply not_evicted_reuse|done].
    + split.
      * intros [Hev|Hchk]; [by apply not_evicted_grow in Hev|done].
      * intros _. split; [apply not_evicted_grow|done].
    + apply sweep_due_spec in Hdue as (Hpol & Hne & Hlate). split; [done|].
      intros Hzero. done.
  - intros buffer now s r s' [Hrel|Hrel].
    + destruct buffer as [a|]; [|done]. simpl in Hrel.
      destruct (heap s !! a) as [b|]; [|done]. simpl in Hrel. injection Hrel as _ <-.
      split; [|done].
      intros [(x & Hx & Hnx)|(x & [v Hv] & Hnx)]; simpl in *; [done|].
      destruct (decide (x = a)) as [->|Hne].
      * by rewrite lookup_insert_eq in Hnx.
      * rewrite lookup_insert_ne in Hnx by done. congruence.
    + destruct buffer as [a|]; simpl in Hrel.
      2:{ injection Hrel as _ <-. split; [|done].
          intros [(x & Hx & Hnx)|(x & [v Hv] & Hnx)]; [done|congruence]. }
      destruct (heap s !! a) as [b|]; [|done]. simpl in Hrel.
      destruct (m_in_use b); injection Hrel as _ <-.
      * split; [|done].
        intros [(x & Hx & Hnx)|(x & [v Hv] & Hnx)]; simpl in *; [done|].
        destruct (decide (x = a)) as [->|Hne].
        -- by rewrite lookup_insert_eq in Hnx.
        -- rewrite lookup_insert_ne in Hnx by done. congruence.
      * split; [|done].
        intros [(x & Hx & Hnx)|(x & [v Hv] & Hnx)]; [done|congruence].
  - intros buffers time s r s' [Hrel|Hrel].
    + unfold Plain.release_buffers in Hrel.
      destruct (Plain.release_buffers_loop _ _ _ _) as [s2|] eqn:Hloop; [|done].
      simpl in Hrel. injection Hrel as _ <-.
      apply Plain_release_buffers_loop_frame in Hloop as (Hl & Hm & Hc & _).
      split; [|done]. intros [(x & Hx & Hnx)|(x & [v Hv] & Hnx)].
      * by rewrite Hl in Hnx.
      * rewrite Hm in Hnx. congruence.
    + unfold Tracking.release_buffers in Hrel.
      destruct (Tracking.release_buffers_loop _ _ _ _) as [s2|] eqn:Hloop; [|done].
      simpl in Hrel. injection Hrel as _ <-.
      apply Tracking_release_buffers_loop_frame in Hloop as (Hl & Hm & Hc & _).
      split; [|done]. intros [(x & Hx & Hnx)|(x & [v Hv] & Hnx)].
      * by rewrite Hl in Hnx.
      * rewrite Hm in Hnx. congruence.
Qed.

Lemma eviction_only_on_growth_witness :
  ∃ h s',
    single_buffer 64 105 example_idle_pool = Some (h, s')
    ∧ (evicted example_idle_pool s'
       ∨ m_last_cleanup_check s' ≠ m_last_cleanup_check example_idle_pool →
       m_size_list example_idle_pool !! find_free 64 example_idle_pool = None
       ∧ policy_is_active DropOld example_idle_pool = true
       ∧ m_cleanup_timeout example_idle_pool ≠ 0
       ∧ m_cleanup_timeout example_idle_pool
         < 105 - m_last_cleanup_check example_idle_pool).
Proof.
  eexists _, _. split; [reflexivity|].
  refine (proj1 (proj2 (proj1 eviction_only_on_growth example_idle_pool 64 105 _ _ _))).
  reflexivity.
Defined.

Example eviction_example :
  single_buffer 64 105 example_idle_pool
  = Some (Some 3%nat,
          mkState (heap example_idle_pool ++ [mkBuffer true 64 64 1 0 (Some 64)])
                  10 105 3 {[1%nat := true; 2%nat := true; 3%nat := true]} 2
                  [1%nat; 2%nat; 3%nat] true).
Proof. reflexivity. Qed.

(** ** C9 *)

Lemma after_eviction_reached :
  ('(A, s1) ← single_buffer 8 0 (set_cleanup_timeout 10 0 (initialize startup));
   '(_, s2) ← Plain.release_buffer A 1 s1;
   '(_, s3) ← single_buffer 16 20 s2;
   Some (A, s3)) = Some (Some 0%nat, after_eviction).
Proof. reflexivity. Qed.

Lemma after_reset_reached :
  ('(A, s1) ← single_buffer 5 0 (initialize startup);
   '(B, s2) ← single_buffer 0 0 (reset s1);
   Some (A, B, s2)) = Some (Some 0%nat, Some 0%nat, after_reset).
Proof. reflexivity. Qed.

(** C9 (the code departs from the claim).  Without the test: the caller still
    holds the evicted [A]; [release_buffers({A})] leaves the registry alone,
    [release_buffer(A)] enters [A] into the registry again, so the two end
    states differ, and after the single release the next sweep looks [A] up
    in [m_size_list], does not find it and erases [end()], while after the
    batch release the same acquisition is defined.  With the test the two
    functions still differ on a record in use that is not registered. *)
Theorem batch_release_differs :
  (∃ sb ss,
     Plain.release_buffers [Some 0%nat] (λ _, 21) after_eviction = Some (true, sb)
     ∧ release_each Plain.release_buffer [Some 0%nat] (λ _, 21) 0 after_eviction = Some ss
     ∧ sb ≠ ss
     ∧ m_buffers sb !! 0%nat = None
     ∧ m_buffers ss !! 0%nat = Some true
     ∧ is_Some (single_buffer 32 40 sb)
     ∧ single_buffer 32 40 ss = None)
  ∧ (∃ sb ss,
       Tracking.release_buffers [Some 0%nat] (λ _, 3) after_reset = Some (true, sb)
       ∧ release_each Tracking.release_buffer [Some 0%nat] (λ _, 3) 0 after_reset = Some ss
       ∧ sb ≠ ss
       ∧ m_buffers sb !! 0%nat = None
       ∧ m_buffers ss !! 0%nat = Some true).
Proof.
  split.
  - eexists _, _. split_and!; [reflexivity|reflexivity| |done|done|by eexists|done].
    intros Heq. apply (f_equal (λ s, m_buffers s !! 0%nat)) in Heq. done.
  - eexists _, _. split_and!; [reflexivity|reflexivity| |done|done].
    intros Heq. apply (f_equal (λ s, m_buffers s !! 0%nat)) in Heq. done.
Qed.

Lemma with_buffers_id s : with_buffers (m_buffers s) s = s.
Proof. by destruct s. Qed.

Lemma in_use_registered_mark_free a b now s :
  heap s !! a = Some b → in_use_registered s → in_use_registered (mark_free a b now s).
Proof.
  intros Hb Hreg x. simpl. rewrite deref_insert by (by eapply lookup_lt_Some).
  case_decide; [done|]. apply Hreg.
Qed.

(** On a registered record the single release leaves the registry as it is,
    like the batch release. *)
Lemma Tracking_release_buffers_loop_each buffers time i s :
  in_use_registered s →
  Tracking.release_buffers_loop buffers time i s
  = release_each Tracking.release_buffer buffers time i s.
Proof.
  revert i s. induction buffers as [|[a|] rest IH]; intros i s Hreg; simpl; [done| |by apply IH].
  destruct (heap s !! a) as [b|] eqn:Hb; [|done]. simpl.
  destruct (m_in_use b) eqn:Hu; simpl; [|by apply IH].
  rewrite insert_id by (apply Hreg; by rewrite (deref_lookup _ _ _ Hb)).
  rewrite with_buffers_id. apply IH. by apply in_use_registered_mark_free.
Qed.

Lemma Plain_release_buffers_loop_each buffers time i s :
  (∀ a, Some a ∈ buffers → m_buffers s !! a = Some true) →
  Plain.release_buffers_loop buffers time i s
  = release_each Plain.release_buffer buffers time i s.
Proof.
  revert i s. induction buffers as [|[a|] rest IH]; intros i s Hreg; simpl; [done| |done].
  destruct (heap s !! a) as [b|] eqn:Hb; [|done]. simpl.
  rewrite insert_id by (apply Hreg; by left). rewrite with_buffers_id.
  apply IH. intros x Hx. simpl. apply Hreg. by right.
Qed.

(** Two single releases at the same clock reading can be swapped. *)
Lemma Plain_release_buffer_comm x y now s :
  ('(_, s1) ← Plain.release_buffer x now s; Plain.release_buffer y now s1)
  = ('(_, s1) ← Plain.release_buffer y now s; Plain.release_buffer x now s1).
Proof.
  destruct x as [a|], y as [c|]; simpl; try done.
  2:{ by destruct (heap s !! a). }
  2:{ by destruct (heap s !! c). }
  destruct (decide (a = c)) as [->|Hne]; [done|].
  destruct (heap s !! a) as [ba|] eqn:Ha, (heap s !! c) as [bc|] eqn:Hc; simpl.
  - rewrite !list_lookup_insert_ne by done. rewrite Ha, Hc. simpl.
    unfold mark_free, with_buffers, with_heap, with_buffers_in_use. simpl.
    rewrite (list_insert_insert_ne _ a c) by done.
    by rewrite (insert_insert_ne _ a c).
  - rewrite list_lookup_insert_ne by done. by rewrite Hc.
  - rewrite list_lookup_insert_ne by done. by rewrite Ha.
  - done.
Qed.

Lemma Tracking_release_buffer_comm x y now s :
  ('(_, s1) ← Tracking.release_buffer x now s; Tracking.release_buffer y now s1)
  = ('(_, s1) ← Tracking.release_buffer y now s; Tracking.release_buffer x now s1).
Proof.
  destruct x as [a|], y as [c|]; simpl; try done.
  2:{ destruct (heap s !! a) as [b|]; simpl; [|done]. by destruct (m_in_use b). }
  2:{ destruct (heap s !! c) as [b|]; simpl; [|done]. by destruct (m_in_use b). }
  destruct (decide (a = c)) as [->|Hne]; [done|].
  destruct (heap s !! a) as [ba|] eqn:Ha, (heap s !! c) as [bc|] eqn:Hc; simpl.
  - destruct (m_in_use ba) eqn:Hua, (m_in_use bc) eqn:Huc; simpl;
      rewrite ?list_lookup_insert_ne by done; rewrite ?Ha, ?Hc; simpl;
      rewrite ?Hua, ?Huc; try done.
    unfold mark_free, with_buffers, with_heap, with_buffers_in_use. simpl.
    rewrite (list_insert_insert_ne _ a c) by done.
    by rewrite (insert_insert_ne _ a c).
  - destruct (m_in_use ba) eqn:Hua; simpl;
      rewrite ?list_lookup_insert_ne by done; by rewrite Hc.
  - destruct (m_in_use bc) eqn:Huc; simpl;
      rewrite ?list_lookup_insert_ne by done; by rewrite Ha.
  - done.
Qed.

Section release_each_order.
Context (release_buffer : BufferPtr → Z → State → option (bool * State)).
Context (now : Z).
Hypothesis comm : ∀ x y s,
  ('(_, s1) ← release_buffer x now s; release_buffer y now s1)
  = ('(_, s1) ← release_buffer y now s; release_buffer x now s1).

Lemma release_each_index buffers i j s :
  release_each release_buffer buffers (λ _, now) i s
  = release_each release_buffer buffers (λ _, now) j s.
Proof.
  revert i j s. induction buffers as [|x rest IH]; intros i j s; simpl; [done|].
  destruct (release_buffer x now s) as [[r s1]|]; simpl; [|done]. apply IH.
Qed.

(** With an unchanging clock the order of the single releases is immaterial. *)
Lemma release_each_Permutation buffers buffers' i s :
  buffers ≡ₚ buffers' →
  release_each release_buffer buffers (λ _, now) i s
  = release_each release_buffer buffers' (λ _, now) i s.
Proof.
  intros Hperm. revert i s.
  induction Hperm as [|x l l' _ IH|x y l|l l' l'' _ IH1 _ IH2]; intros i s; simpl.
  - done.
  - destruct (release_buffer x now s) as [[r s1]|]; simpl; [|done]. apply IH.
  - pose proof (comm y x s) as Hc.
    destruct (release_buffer y now s) as [[r1 s1]|], (release_buffer x now s) as [[r2 s2]|];
      simpl in *.
    + destruct (release_buffer x now s1) as [[r3 s3]|],
        (release_buffer y now s2) as [[r4 s4]|]; simpl; [|done..].
      injection Hc as _ <-. done.
    + by destruct (release_buffer x now s1) as [[r3 s3]|].
    + by destruct (release_buffer y now s2) as [[r3 s3]|].
    + done.
  - by rewrite IH1.
Qed.
End release_each_order.

(** With the test in the release functions, and every record in use
    registered, the batch release ends in the state that the single releases
    reach in any order, the clock not moving. *)
Lemma Tracking_batch_release_any_order buffers buffers' now s :
  in_use_registered s → buffers ≡ₚ buffers' →
  Tracking.release_buffers buffers (λ _, now) s
  = (λ s', (true, s')) <$> release_each Tracking.release_buffer buffers' (λ _, now) 0 s.
Proof.
  intros Hreg Hperm. unfold Tracking.release_buffers.
  rewrite Tracking_release_buffers_loop_each by done.
  rewrite (release_each_Permutation _ now (λ x y, Tracking_release_buffer_comm x y now)
             buffers buffers' 0 s Hperm).
  by destruct (release_each _ _ _ _ _).
Qed.

(** Without the test the same holds for handles that are registered. *)
Lemma Plain_batch_release_any_order buffers buffers' now s :
  (∀ a, Some a ∈ buffers → m_buffers s !! a = Some true) → buffers ≡ₚ buffers' →
  Plain.release_buffers buffers (λ _, now) s
  = (λ s', (true, s')) <$> release_each Plain.release_buffer buffers' (λ _, now) 0 s.
Proof.
  intros Hreg Hperm. unfold Plain.release_buffers.
  rewrite Plain_release_buffers_loop_each by done.
  rewrite (release_each_Permutation _ now (λ x y, Plain_release_buffer_comm x y now)
             buffers buffers' 0 s Hperm).
  by destruct (release_each _ _ _ _ _).
Qed.

Lemma in_use_registered_Tracking_release_buffers_loop buffers time i s s' :
  in_use_registered s → Tracking.release_buffers_loop buffers time i s = Some s' →
  in_use_registered s'.
Proof.
  revert i s. induction buffers as [|[a|] rest IH]; intros i s Hreg; simpl.
  - by intros [= <-].
  - destruct (heap s !! a) as [b|] eqn:Hb; [|done]. simpl. apply IH.
    destruct (m_in_use b); [|done]. by apply in_use_registered_mark_free.
  - by apply IH.
Qed.

Lemma in_use_registered_Tracking_call c s s' :
  pool_inv s → in_use_registered s → positive_size c = true →
  call Tracking.release_buffer Tracking.release_buffers c s = Some s' →
  in_use_registered s'.
Proof.
  intros Hinv Hreg Hpos Hc. destruct c; simpl in Hc.
  - by injection Hc as <-.
  - by injection Hc as <-.
  - by injection Hc as <-.
  - injection Hc as <-. clear Hpos. revert s Hinv Hreg.
    unfold set_policies. induction policies as [|p ps IH]; intros s Hinv Hreg; simpl; [done|].
    by apply IH.
  - by injection Hc as <-.
  - injection Hc as <-. intros a Ha. simpl in Ha.
    destruct (decide (a ∈ registry_keys s)) as [Hk|Hk].
    + destruct (reset_all_cleared (heap s) (registry_keys s) a) as [_ Hf]; [by left|].
      congruence.
    + rewrite (reset_all_other _ _ _ Hk) in Ha. apply Hreg in Ha.
      destruct Hk. apply elem_of_registry_keys. by eexists.
  - injection Hc as <-. intros a Ha. simpl in *.
    destruct (decide (a < length (heap s))%nat) as [Hlt|Hge].
    + rewrite deref_app_l in Ha by done. by apply Hreg.
    + destruct (decide (a = length (heap s))) as [->|Hne].
      * by rewrite deref_app_new in Ha.
      * rewrite deref_ge in Ha; [done|]. rewrite length_app. simpl. lia.
  - simpl in Hpos. apply Z.ltb_lt in Hpos.
    destruct (single_buffer min_size now s) as [[h s2]|] eqn:Hcall; [|done].
    simpl in Hc. simplify_eq. pose proof Hinv as (Hinit & Hlive & Hsorted & Hnd & Hm & Hstale & Huse).
    assert (in_use_registered (grow min_size s)) as Hgrow.
    { intros a Ha. simpl in *.
      destruct (decide (a = length (heap s))) as [->|Hne]; [by rewrite lookup_insert_eq|].
      rewrite lookup_insert_ne by done. apply Hreg.
      destruct (decide (a < length (heap s))%nat) as [Hlt|Hge].
      - by rewrite deref_app_l in Ha.
      - rewrite deref_ge in Ha; [done|]. rewrite length_app. simpl. lia. }
    destruct (single_buffer_cases s min_size now h s' Hcall)
      as [(a & Ha & -> & ->)|[(Ha & _ & _ & ->)|(Ha & _ & _ & Hgc)]]; [|done|].
    + intros x Hx. simpl in *.
      assert (a ∈ m_size_list s) as Hal by (by eapply list_elem_of_lookup_2).
      rewrite Forall_forall in Hlive. rewrite deref_insert in Hx by (by apply Hlive).
      case_decide as Hxa; [subst x|by apply Hreg].
      destruct (find_free_found min_size s Hsorted a Ha) as [_ Hfit].
      rewrite Forall_forall in Hstale. destruct (Hstale a Hal) as [[v Hv]|Hz]; [|lia].
      destruct (Hm a v Hv) as [_ ->]. done.
    + unfold garbage_collect in Hgc.
      pose proof (drop_buffers_spec _ _ _ Hgc) as (Heq & Hlook & _).
      intros x Hx. rewrite Heq in Hx. simpl in Hx. rewrite Hlook.
      rewrite decide_False; [by apply Hgrow|].
      intros [_ Hold]%elem_of_buffers_to_drop. unfold too_old in Hold. simpl in Hold.
      rewrite Hx in Hold. done.
  - destruct (Tracking.release_buffer buffer now s) as [[r s2]|] eqn:Hrel; [|done].
    simpl in Hc. simplify_eq. destruct buffer as [a|]; simpl in Hrel; [|by simplify_eq].
    destruct (heap s !! a) as [b|] eqn:Hb; [|done]. simpl in Hrel.
    destruct (m_in_use b); injection Hrel as <- <-; [|done].
    apply in_use_registered_mark_free; [done|]. intros x Hx. simpl in *.
    destruct (decide (x = a)) as [->|Hne]; [by rewrite lookup_insert_eq|].
    rewrite lookup_insert_ne by done. by apply Hreg.
  - unfold Tracking.release_buffers in Hc.
    destruct (Tracking.release_buffers_loop _ _ _ _) as [s2|] eqn:Hloop; [|done].
    simpl in Hc. simplify_eq. by eapply in_use_registered_Tracking_release_buffers_loop.
Qed.

(** With the test in the release functions and requests for positive sizes,
    every record in use is registered in every state reached. *)
Lemma in_use_registered_Tracking_run calls s s' :
  pool_inv s → in_use_registered s → forallb positive_size calls = true →
  run Tracking.release_buffer Tracking.release_buffers calls s = Some s' →
  in_use_registered s'.
Proof.
  revert s. induction calls as [|c calls IH]; intros s Hinv Hreg Hcalls; simpl.
  - by intros [= <-].
  - simpl in Hcalls. apply andb_true_iff in Hcalls as [Hc' Hcalls].
    destruct (call _ _ c s) as [s1|] eqn:Hc; [|done]. simpl.
    apply IH; [by eapply pool_inv_Tracking_call| |done].
    by eapply in_use_registered_Tracking_call.
Qed.

(** ** C10 *)

(** C10.  [set_cleanup_timeout(seconds)] sets the [DropOld] policy for every
    value of [seconds]: after the call [policy_is_active(DropOld)] is true.
    This includes [set_cleanup_timeout(0)], which stores a timeout of 0. *)
Theorem set_cleanup_timeout_sets_DropOld :
  (∀ seconds now s,
     policy_is_active DropOld (set_cleanup_timeout seconds now s) = true
     ∧ m_cleanup_timeout (set_cleanup_timeout seconds now s) = seconds)
  ∧ (∀ now s, policy_is_active DropOld (set_cleanup_timeout 0 now s) = true).
Proof.
  assert (∀ seconds now s,
            policy_is_active DropOld (set_cleanup_timeout seconds now s) = true) as H.
  { intros seconds now s. unfold policy_is_active, set_cleanup_timeout, set_policy.
    cbn [m_policies with_policies]. apply Z.setbit_eq. done. }
  split; [|by intros; apply H]. intros seconds now s. split; [apply H|done].
Qed.

(** * Further properties of the code *)

(** ** Policies *)

Lemma policy_is_active_set_policy p q s :
  policy_is_active q (set_policy p s) = bool_decide (p = q) || policy_is_active q s.
Proof.
  unfold policy_is_active, set_policy. cbn [m_policies with_policies].
  case_bool_decide as Hpq.
  - subst q. by rewrite Z.setbit_eq by (by destruct p).
  - rewrite Z.setbit_neq; [done|by destruct p|by destruct p, q].
Qed.

(** X1.  [set_policy] switches one policy on and [clear_policy] switches it
    off; the other policy and the rest of the state are left alone. *)
Theorem policy_set_clear p q s :
  policy_is_active q (set_policy p s) = bool_decide (p = q) || policy_is_active q s
  ∧ policy_is_active q (clear_policy p s)
    = negb (bool_decide (p = q)) && policy_is_active q s
  ∧ with_policies (m_policies s) (set_policy p s) = s
  ∧ with_policies (m_policies s) (clear_policy p s) = s.
Proof.
  split_and!.
  - apply policy_is_active_set_policy.
  - unfold policy_is_active, clear_policy. cbn [m_policies with_policies].
    case_bool_decide as Hpq.
    + subst q. by rewrite Z.clearbit_eq.
    + rewrite Z.clearbit_neq; [done|by destruct p, q].
  - by destruct s.
  - by destruct s.
Qed.

(** X2.  The [std::initializer_list] overload of [set_policy] only switches
    policies on: a policy is active afterwards exactly if it was active before
    or is in the list.  Nothing is cleared first. *)
Theorem set_policies_only_adds ps q s :
  policy_is_active q (set_policies ps s) = bool_decide (q ∈ ps) || policy_is_active q s.
Proof.
  unfold set_policies. revert s. induction ps as [|p ps IH]; intros s; simpl; [done|].
  rewrite IH, policy_is_active_set_policy, orb_assoc. f_equal.
  destruct (decide (p = q)) as [->|Hne].
  - rewrite (bool_decide_eq_true_2 (q = q)) by done.
    rewrite (bool_decide_eq_true_2 (q ∈ q :: ps)) by (by left). apply orb_true_r.
  - rewrite (bool_decide_eq_false_2 (p = q)) by done. rewrite orb_false_r.
    apply bool_decide_ext. rewrite elem_of_cons.
    split; [by right|]. intros [?|?]; [congruence|done].
Qed.

(** X3.  [reset()] leaves [ZeroBuffer] as the only active policy and keeps
    [m_cleanup_timeout] and [m_last_cleanup_check]: eviction stays switched off
    after a [reset()], so an acquisition on the pool just reset removes no
    record, whatever the timeout and the time. *)
Theorem reset_switches_eviction_off s min_size now h s' :
  single_buffer min_size now (reset s) = Some (h, s') →
  policy_is_active ZeroBuffer (reset s) = true
  ∧ policy_is_active DropOld (reset s) = false
  ∧ m_cleanup_timeout (reset s) = m_cleanup_timeout s
  ∧ m_last_cleanup_check (reset s) = m_last_cleanup_check s
  ∧ ¬ evicted (reset s) s'
  ∧ m_last_cleanup_check s' = m_last_cleanup_check s.
Proof.
  intros Hcall. split_and!; [done..| |].
  - destruct (single_buffer_cases _ _ _ _ _ Hcall)
      as [(a & Ha & -> & ->)|[(Ha & _ & _ & ->)|(_ & Hdue & _)]].
    + apply not_evicted_reuse.
    + apply not_evicted_grow.
    + by apply sweep_due_spec in Hdue as (? & _).
  - destruct (single_buffer_cases _ _ _ _ _ Hcall)
      as [(a & Ha & -> & ->)|[(Ha & _ & _ & ->)|(_ & Hdue & _)]]; [done..|].
    by apply sweep_due_spec in Hdue as (? & _).
Qed.

Lemma reset_switches_eviction_off_witness :
  ∃ h s',
    single_buffer 64 105 (reset example_idle_pool) = Some (h, s')
    ∧ policy_is_active ZeroBuffer (reset example_idle_pool) = true
    ∧ policy_is_active DropOld (reset example_idle_pool) = false
    ∧ m_cleanup_timeout (reset example_idle_pool) = m_cleanup_timeout example_idle_pool
    ∧ m_last_cleanup_check (reset example_idle_pool)
      = m_last_cleanup_check example_idle_pool
    ∧ ¬ evicted (reset example_idle_pool) s'
    ∧ m_last_cleanup_check s' = m_last_cleanup_check example_idle_pool.
Proof.
  eexists _, _. split; [reflexivity|].
  eapply (reset_switches_eviction_off example_idle_pool 64 105). reflexivity.
Defined.

(** ** Handles *)

(** What an acquisition does to the records. *)
Lemma single_buffer_frame s min_size now a s' :
  pool_inv s → single_buffer min_size now s = Some (Some a, s') →
  m_in_use (deref (heap s) a) = false
  ∧ m_in_use (deref (heap s') a) = true
  ∧ ∀ x, x ≠ a → deref (heap s') x = deref (heap s) x.
Proof.
  intros Hinv Hcall. pose proof Hinv as (Hinit & Hlive & Hsorted & Hrest).
  assert (∀ x, x ≠ length (heap s) →
            deref (heap (grow min_size s)) x = deref (heap s) x) as Hgrow.
  { intros x Hx. simpl. destruct (decide (x < length (heap s))%nat).
    - by rewrite deref_app_l.
    - rewrite !deref_ge; [done|lia|]. rewrite length_app. simpl. lia. }
  destruct (single_buffer_cases _ _ _ _ _ Hcall)
    as [(a' & Ha & [= <-] & ->)|[(Ha & _ & [= ->] & ->)|(Ha & _ & [= ->] & Hgc)]].
  - destruct (find_free_found min_size s Hsorted a Ha) as [Hfree _].
    assert (a < length (heap s))%nat as Hlt.
    { rewrite Forall_forall in Hlive. by eapply Hlive, list_elem_of_lookup_2. }
    split; [done|]. simpl. split.
    + rewrite deref_insert by done. by rewrite decide_True.
    + intros x Hx. rewrite deref_insert by done. by rewrite decide_False.
  - split; [by rewrite deref_ge|]. split; [simpl; by rewrite deref_app_new|done].
  - apply drop_buffers_spec in Hgc as (-> & _). simpl.
    split; [by rewrite deref_ge|]. split; [by rewrite deref_app_new|].
    intros x Hx. by apply Hgrow.
Qed.

(** X4.  On a well-formed pool [single_buffer] never hands out a record that
    is in use: the record returned was free (or did not exist) before the
    call, and every record that was in use is untouched by the call.  Two
    handles acquired without a release in between are different. *)
Theorem single_buffer_exclusive s min_size now a s' :
  pool_inv s → single_buffer min_size now s = Some (Some a, s') →
  m_in_use (deref (heap s) a) = false
  ∧ m_in_use (deref (heap s') a) = true
  ∧ (∀ x, m_in_use (deref (heap s) x) = true →
       x ≠ a ∧ deref (heap s') x = deref (heap s) x)
  ∧ (∀ min_size' now' a' s'',
       single_buffer min_size' now' s' = Some (Some a', s'') → a' ≠ a).
Proof.
  intros Hinv Hcall.
  destruct (single_buffer_frame s min_size now a s' Hinv Hcall) as (Hfree & Hused & Hframe).
  split_and!; [done|done| |].
  - intros x Hx. assert (x ≠ a) as Hne by (intros ->; congruence).
    split; [done|]. by apply Hframe.
  - intros min_size' now' a' s'' Hcall' ->.
    destruct (single_buffer_total min_size now s Hinv) as (a1 & s1 & Hc1 & Hinv1).
    rewrite Hcall in Hc1. injection Hc1 as <- <-.
    destruct (single_buffer_frame s' min_size' now' a s'' Hinv1 Hcall') as (Hfree' & _).
    congruence.
Qed.

Lemma single_buffer_exclusive_witness :
  pool_inv example_pool
  ∧ ∃ a s',
    single_buffer 50 9 example_pool = Some (Some a, s')
    ∧ m_in_use (deref (heap example_pool) a) = false
    ∧ m_in_use (deref (heap s') a) = true
    ∧ (∀ x, m_in_use (deref (heap example_pool) x) = true →
         x ≠ a ∧ deref (heap s') x = deref (heap example_pool) x)
    ∧ (∀ min_size' now' a' s'',
         single_buffer min_size' now' s' = Some (Some a', s'') → a' ≠ a).
Proof.
  assert (pool_inv example_pool) as Hinv
    by (apply (bool_decide_unpack _); vm_compute; reflexivity).
  split; [exact Hinv|]. eexists _, _. split; [reflexivity|].
  apply (single_buffer_exclusive example_pool 50 9 _ _ Hinv). reflexivity.
Defined.

(** X5.  A buffer that has been released is there for the next request it can
    serve: after releasing a record of capacity [c], an acquisition of at most
    [c] bytes allocates nothing.  It returns a record of capacity at most [c]
    that is large enough, and [m_size_list] and the counter are as before the
    release.  This holds with either release function. *)
Theorem release_then_acquire_reuses s a b min_size t now :
  pool_inv s → heap s !! a = Some b → m_in_use b = true → min_size ≤ m_allocated b →
  ∃ s1 a' s2,
    Plain.release_buffer (Some a) t s = Some (true, s1)
    ∧ Tracking.release_buffer (Some a) t s = Some (true, s1)
    ∧ single_buffer min_size now s1 = Some (Some a', s2)
    ∧ min_size ≤ m_allocated (deref (heap s2) a') ≤ m_allocated b
    ∧ m_size_list s2 = m_size_list s
    ∧ buffers_available s2 = buffers_available s
    ∧ m_buffers_in_use s2 = m_buffers_in_use s.
Proof.
  intros Hinv Hb Hu Hfit.
  assert (a ∈ m_size_list s) as Hal.
  { destruct Hinv as [_ Hok]. apply (pool_ok_in_use _ _ _ _ Hok).
    by rewrite (deref_lookup _ _ _ Hb). }
  set (s1 := mark_free a b t (with_buffers (<[a := true]> (m_buffers s)) s)).
  assert (Plain.release_buffer (Some a) t s = Some (true, s1)) as Hrel.
  { simpl. by rewrite Hb. }
  assert (pool_inv s1) as Hinv1
    by (by eapply (pool_inv_Plain_release_buffer a t s true s1)).
  pose proof Hinv1 as (Hinit & Hlive & Hsorted & Hrest).
  assert (a < length (heap s))%nat as Hlt by (by eapply lookup_lt_Some).
  assert (deref (heap s1) a
          = mkBuffer false (m_data_size b) (m_allocated b) (m_usage_count b) t (m_buffer b))
    as Hda.
  { unfold s1. simpl. rewrite deref_insert by done. by rewrite decide_True. }
  destruct (m_size_list s1 !! find_free min_size s1) as [a'|] eqn:Ha'.
  - assert (a' < length (heap s1))%nat as Hlt'.
    { rewrite Forall_forall in Hlive. by eapply Hlive, list_elem_of_lookup_2. }
    exists s1, a', (reuse min_size a' s1). split_and!.
    + done.
    + by rewrite <-(Plain_release_buffer_in_use a b).
    + by apply single_buffer_reuse.
    + unfold reuse. cbn [heap with_heap with_buffers_in_use].
      rewrite deref_insert by done. rewrite decide_True by done. cbn [m_allocated].
      by destruct (find_free_found min_size s1 Hsorted a' Ha') as [_ Hge].
    + unfold reuse. cbn [heap with_heap with_buffers_in_use].
      rewrite deref_insert by done. rewrite decide_True by done. cbn [m_allocated].
      pose proof (find_free_least min_size s1 Hsorted a' a Ha' Hal) as Hle.
      rewrite Hda in Hle. simpl in Hle. by apply Hle.
    + done.
    + done.
    + simpl. lia.
  - exfalso. destruct (find_free_none min_size s1 Hsorted a Ha' Hal) as [Hsmall|Hused].
    + rewrite Hda in Hsmall. simpl in Hsmall. lia.
    + by rewrite Hda in Hused.
Qed.

Lemma release_then_acquire_reuses_witness :
  pool_inv one_in_use
  ∧ ∃ s1 a' s2,
    Plain.release_buffer (Some 0%nat) 5 one_in_use = Some (true, s1)
    ∧ Tracking.release_buffer (Some 0%nat) 5 one_in_use = Some (true, s1)
    ∧ single_buffer 30 9 s1 = Some (Some a', s2)
    ∧ 30 ≤ m_allocated (deref (heap s2) a') ≤ 100
    ∧ m_size_list s2 = m_size_list one_in_use
    ∧ buffers_available s2 = buffers_available one_in_use
    ∧ m_buffers_in_use s2 = m_buffers_in_use one_in_use.
Proof.
  assert (pool_inv one_in_use) as Hinv
    by (apply (bool_decide_unpack _); vm_compute; reflexivity).
  split; [exact Hinv|].
  apply (release_then_acquire_reuses one_in_use 0 (mkBuffer true 100 100 1 0 (Some 100))
           30 5 9 Hinv); [reflexivity|reflexivity|simpl; lia].
Defined.

(** X6.  [buffer_in_use] follows the handle: false for the null handle, true
    for the handle an acquisition has just returned, false again once the
    handle has been released, with either release function. *)
Theorem buffer_in_use_follows_handle s min_size now h s' :
  pool_inv s → single_buffer min_size now s = Some (h, s') →
  buffer_in_use None s = Some false
  ∧ buffer_in_use h s' = Some true
  ∧ ∀ t, ∃ s'',
      Plain.release_buffer h t s' = Some (true, s'')
      ∧ Tracking.release_buffer h t s' = Some (true, s'')
      ∧ buffer_in_use h s'' = Some false.
Proof.
  intros Hinv Hcall.
  destruct (single_buffer_total min_size now s Hinv) as (a & s1 & Hc1 & Hinv1).
  rewrite Hcall in Hc1. injection Hc1 as -> <-.
  assert (∃ b, heap s' !! a = Some b ∧ m_in_use b = true) as (b & Hb & Hu).
  { pose proof Hinv as (Hinit & Hlive & Hsorted & Hrest).
    destruct (single_buffer_cases _ _ _ _ _ Hcall)
      as [(a' & Ha & [= <-] & ->)|[(Ha & _ & [= ->] & ->)|(Ha & _ & [= ->] & Hgc)]].
    - exists (mkBuffer true min_size (m_allocated (deref (heap s) a))
                (uint32_wrap (m_usage_count (deref (heap s) a) + 1))
                (m_last_used (deref (heap s) a)) (m_buffer (deref (heap s) a))).
      split; [|reflexivity]. simpl. apply list_lookup_insert_eq.
      rewrite Forall_forall in Hlive. by eapply Hlive, list_elem_of_lookup_2.
    - exists (mkBuffer true min_size min_size (uint32_wrap (0 + 1)) 0 (Some min_size)).
      split; [|reflexivity]. simpl. rewrite lookup_app_r by lia.
      by rewrite Nat.sub_diag.
    - apply drop_buffers_spec in Hgc as (-> & _).
      exists (mkBuffer true min_size min_size (uint32_wrap (0 + 1)) 0 (Some min_size)).
      split; [|reflexivity]. simpl. rewrite lookup_app_r by lia.
      by rewrite Nat.sub_diag. }
  split_and!; [done|simpl; by rewrite Hb; simpl; rewrite Hu|].
  intros t. eexists. split_and!.
  - simpl. rewrite Hb. reflexivity.
  - simpl. rewrite Hb. simpl. by rewrite Hu.
  - simpl. rewrite list_lookup_insert_eq by (by eapply lookup_lt_Some). done.
Qed.

Lemma buffer_in_use_follows_handle_witness :
  pool_inv example_pool
  ∧ ∃ h s',
    single_buffer 50 9 example_pool = Some (h, s')
    ∧ buffer_in_use None example_pool = Some false
    ∧ buffer_in_use h s' = Some true
    ∧ ∀ t, ∃ s'',
        Plain.release_buffer h t s' = Some (true, s'')
        ∧ Tracking.release_buffer h t s' = Some (true, s'')
        ∧ buffer_in_use h s'' = Some false.
Proof.
  assert (pool_inv example_pool) as Hinv
    by (apply (bool_decide_unpack _); vm_compute; reflexivity).
  split; [exact Hinv|]. eexists _, _. split; [reflexivity|].
  apply (buffer_in_use_follows_handle example_pool 50 9 _ _ Hinv). reflexivity.
Defined.

(** ** Eviction *)

Lemma drop_buffers_length l s s' :
  drop_buffers l s = Some s' →
  length (m_size_list s) = (length (m_size_list s') + length l)%nat.
Proof.
  revert s. induction l as [|a l IH]; intros s; simpl.
  - intros [= <-]. lia.
  - unfold drop_buffer, erase_find.
    destruct (find_index a (m_size_list s)) as [i|] eqn:Hi; [|done]. simpl.
    intros Hs'. apply IH in Hs'. simpl in Hs'.
    apply find_index_Some in Hi as [Hi _]. apply lookup_lt_Some in Hi.
    rewrite length_delete in Hs' by (by apply lookup_lt_is_Some). lia.
Qed.

(** X7.  A sweep on a well-formed pool removes every registered record that is
    free and has been idle for longer than the timeout, from the registry and
    from [m_size_list]; afterwards no registered record is too old, and
    [buffers_available()] has gone down by the number of records removed. *)
Theorem garbage_collect_removes_all_idle s start_time :
  pool_inv s →
  ∃ s',
    garbage_collect start_time s = Some s'
    ∧ (∀ a, is_Some (m_buffers s !! a) →
         m_in_use (deref (heap s) a) = false →
         m_cleanup_timeout s < start_time - m_last_used (deref (heap s) a) →
         m_buffers s' !! a = None ∧ a ∉ m_size_list s')
    ∧ (∀ a, is_Some (m_buffers s' !! a) → too_old start_time s' a = false)
    ∧ buffers_available s'
      = buffers_available s
        - Z.of_nat (length (List.filter (too_old start_time s) (registry_keys s))).
Proof.
  intros Hinv. destruct (garbage_collect_total start_time s Hinv) as (s' & Hgc & _).
  exists s'. split; [done|]. unfold garbage_collect in Hgc.
  pose proof (drop_buffers_length _ _ _ Hgc) as Hlen.
  apply drop_buffers_spec in Hgc as (Heq & Hreg & _ & _ & Hgone).
  destruct Hinv as (_ & _ & _ & Hnd & _).
  split_and!.
  - intros a Ha Hfree Hidle.
    assert (a ∈ List.filter (too_old start_time s) (registry_keys s)) as Hl.
    { apply elem_of_buffers_to_drop. split; [done|]. unfold too_old.
      rewrite Hfree. simpl. by apply Z.ltb_lt. }
    split; [|by apply Hgone]. rewrite Hreg. by rewrite decide_True.
  - intros a [v Hv]. rewrite Hreg in Hv. case_decide as Hl; [done|].
    destruct (too_old start_time s' a) eqn:Hold; [|done].
    destruct Hl. apply elem_of_buffers_to_drop. split; [by eexists|].
    rewrite Heq in Hold. exact Hold.
  - unfold buffers_available. lia.
Qed.

Lemma garbage_collect_removes_all_idle_witness :
  pool_inv example_idle_pool
  ∧ ∃ s',
    garbage_collect 105 example_idle_pool = Some s'
    ∧ (∀ a, is_Some (m_buffers example_idle_pool !! a) →
         m_in_use (deref (heap example_idle_pool) a) = false →
         m_cleanup_timeout example_idle_pool
         < 105 - m_last_used (deref (heap example_idle_pool) a) →
         m_buffers s' !! a = None ∧ a ∉ m_size_list s')
    ∧ (∀ a, is_Some (m_buffers s' !! a) → too_old 105 s' a = false)
    ∧ buffers_available s'
      = buffers_available example_idle_pool
        - Z.of_nat (length (List.filter (too_old 105 example_idle_pool)
                              (registry_keys example_idle_pool))).
Proof.
  assert (pool_inv example_idle_pool) as Hinv
    by (apply (bool_decide_unpack _); vm_compute; reflexivity).
  split; [exact Hinv|].
  exact (garbage_collect_removes_all_idle example_idle_pool 105 Hinv).
Defined.

(** X8.  A sweep restarts the clock: the acquisition that runs it stores the
    time in [m_last_cleanup_check] and keeps the timeout, so no later
    acquisition sweeps again until more than the timeout has passed.
    [set_cleanup_timeout] restarts the clock in the same way. *)
Theorem sweep_restarts_clock s min_size now h s' :
  single_buffer min_size now s = Some (h, s') →
  m_size_list s !! find_free min_size s = None → sweep_due now s = true →
  m_last_cleanup_check s' = now
  ∧ m_cleanup_timeout s' = m_cleanup_timeout s
  ∧ (∀ now', now' - now ≤ m_cleanup_timeout s → sweep_due now' s' = false)
  ∧ (∀ seconds t now', now' - t ≤ seconds →
       sweep_due now' (set_cleanup_timeout seconds t s) = false).
Proof.
  intros Hcall Hnone Hdue.
  assert (∀ now' s0, now' - m_last_cleanup_check s0 ≤ m_cleanup_timeout s0 →
            sweep_due now' s0 = false) as Hoff.
  { intros now' s0 Hle. unfold sweep_due.
    destruct (Z.ltb_spec (m_cleanup_timeout s0) (now' - m_last_cleanup_check s0)); [lia|].
    apply andb_false_r. }
  destruct (single_buffer_cases _ _ _ _ _ Hcall)
    as [(a & Ha & _)|[(_ & Hdue' & _)|(_ & _ & _ & Hgc)]]; [congruence|congruence|].
  apply drop_buffers_spec in Hgc as (Heq & _).
  assert (m_last_cleanup_check s' = now) as Hchk by (by rewrite Heq).
  assert (m_cleanup_timeout s' = m_cleanup_timeout s) as Htime by (by rewrite Heq).
  split_and!; [done|done| |].
  - intros now' Hle. apply Hoff. rewrite Hchk, Htime. done.
  - intros seconds t now' Hle. by apply Hoff.
Qed.

Lemma sweep_restarts_clock_witness :
  ∃ h s',
    single_buffer 64 105 example_idle_pool = Some (h, s')
    ∧ m_last_cleanup_check s' = 105
    ∧ m_cleanup_timeout s' = m_cleanup_timeout example_idle_pool
    ∧ (∀ now', now' - 105 ≤ m_cleanup_timeout example_idle_pool →
         sweep_due now' s' = false)
    ∧ (∀ seconds t now', now' - t ≤ seconds →
         sweep_due now' (set_cleanup_timeout seconds t example_idle_pool) = false).
Proof.
  eexists _, _. split; [reflexivity|].
  eapply (sweep_restarts_clock example_idle_pool 64 105); reflexivity.
Defined.

(** ** What the calls keep *)

Lemma capacity_kept_refl s : capacity_kept s s.
Proof. intros a b Hb. by exists b. Qed.

Lemma capacity_kept_trans s1 s2 s3 :
  capacity_kept s1 s2 → capacity_kept s2 s3 → capacity_kept s1 s3.
Proof.
  intros H12 H23 a b Hb. destruct (H12 a b Hb) as (b2 & Hb2 & Ha2 & Hm2).
  destruct (H23 a b2 Hb2) as (b3 & Hb3 & Ha3 & Hm3).
  exists b3. split; [done|]. split; congruence.
Qed.

Lemma capacity_kept_heap s s' : heap s' = heap s → capacity_kept s s'.
Proof. intros Heq a b Hb. exists b. by rewrite Heq. Qed.

Lemma capacity_kept_store s s' a b b' :
  heap s !! a = Some b → heap s' = <[a := b']> (heap s) →
  m_allocated b' = m_allocated b → m_buffer b' = m_buffer b →
  capacity_kept s s'.
Proof.
  intros Hb Heq Ha Hm x bx Hx. rewrite Heq.
  destruct (decide (x = a)) as [->|Hne].
  - exists b'. rewrite list_lookup_insert_eq by (by eapply lookup_lt_Some).
    split; [done|]. split; congruence.
  - exists bx. by rewrite list_lookup_insert_ne.
Qed.

Lemma capacity_kept_app s s' bs : heap s' = heap s ++ bs → capacity_kept s s'.
Proof.
  intros Heq a b Hb. exists b. rewrite Heq. split; [|done]. by apply lookup_app_l_Some.
Qed.

Lemma capacity_kept_single_buffer s min_size now h s' :
  single_buffer min_size now s = Some (h, s') → capacity_kept s s'.
Proof.
  intros Hcall.
  destruct (single_buffer_cases _ _ _ _ _ Hcall)
    as [(a & Ha & -> & ->)|[(Ha & _ & _ & ->)|(Ha & _ & _ & Hgc)]].
  - destruct (heap s !! a) as [b|] eqn:Hb.
    + eapply (capacity_kept_store s _ a b); [done|reflexivity|..];
        simpl; by rewrite (deref_lookup _ _ _ Hb).
    + apply capacity_kept_heap. simpl. apply list_insert_ge.
      by apply lookup_ge_None.
  - by eapply capacity_kept_app.
  - apply drop_buffers_spec in Hgc as (-> & _). by eapply capacity_kept_app.
Qed.

Lemma capacity_kept_mark_free a b now s :
  heap s !! a = Some b → capacity_kept s (mark_free a b now s).
Proof. intros Hb. by eapply (capacity_kept_store s _ a b). Qed.

Lemma capacity_kept_Plain_release_buffers_loop buffers time i s s' :
  Plain.release_buffers_loop buffers time i s = Some s' → capacity_kept s s'.
Proof.
  revert i s. induction buffers as [|[a|] rest IH]; intros i s; simpl.
  - intros [= <-]. apply capacity_kept_refl.
  - destruct (heap s !! a) as [b|] eqn:Hb; [|done]. simpl. intros Hs'.
    eapply capacity_kept_trans; [by apply capacity_kept_mark_free|by eapply IH].
  - done.
Qed.

Lemma capacity_kept_Tracking_release_buffers_loop buffers time i s s' :
  Tracking.release_buffers_loop buffers time i s = Some s' → capacity_kept s s'.
Proof.
  revert i s. induction buffers as [|[a|] rest IH]; intros i s; simpl.
  - intros [= <-]. apply capacity_kept_refl.
  - destruct (heap s !! a) as [b|] eqn:Hb; [|done]. simpl. intros Hs'.
    destruct (m_in_use b); [|by eapply IH].
    eapply capacity_kept_trans; [by apply capacity_kept_mark_free|by eapply IH].
  - by apply IH.
Qed.

Lemma capacity_kept_call c s s' :
  is_reset c = false →
  call Plain.release_buffer Plain.release_buffers c s = Some s'
  ∨ call Tracking.release_buffer Tracking.release_buffers c s = Some s' →
  capacity_kept s s'.
Proof.
  intros Hc Hcall.
  destruct c as [| | | | | | |min_size now|buffer now|buffers time]; simpl in *;
    try discriminate Hc.
  - destruct Hcall as [[= <-]|[= <-]]; by apply capacity_kept_heap.
  - destruct Hcall as [[= <-]|[= <-]]; by apply capacity_kept_heap.
  - destruct Hcall as [[= <-]|[= <-]]; by apply capacity_kept_heap.
  - assert (heap (set_policies policies s) = heap s) as Hh.
    { unfold set_policies. clear. revert s.
      induction policies as [|p ps IH]; intros s; simpl; [done|]. by rewrite IH. }
    destruct Hcall as [[= <-]|[= <-]]; by apply capacity_kept_heap.
  - destruct Hcall as [[= <-]|[= <-]]; by apply capacity_kept_heap.
  - destruct Hcall as [[= <-]|[= <-]]; by eapply capacity_kept_app.
  - assert (snd <$> single_buffer min_size now s = Some s') as H by (by destruct Hcall).
    destruct (single_buffer min_size now s) as [[h s1]|] eqn:Hsb; [|done].
    simpl in H. injection H as <-. by eapply capacity_kept_single_buffer.
  - destruct Hcall as [Hcall|Hcall].
    + destruct buffer as [a|]; [|done]. simpl in Hcall.
      destruct (heap s !! a) as [b|] eqn:Hb; [|done]. simpl in Hcall.
      injection Hcall as <-. by eapply (capacity_kept_store s _ a b).
    + destruct buffer as [a|]; simpl in Hcall;
        [|injection Hcall as <-; apply capacity_kept_refl].
      destruct (heap s !! a) as [b|] eqn:Hb; [|done]. simpl in Hcall.
      destruct (m_in_use b); injection Hcall as <-; [|apply capacity_kept_refl].
      by eapply (capacity_kept_store s _ a b).
  - destruct Hcall as [Hcall|Hcall].
    + unfold Plain.release_buffers in Hcall.
      destruct (Plain.release_buffers_loop _ _ _ _) as [s2|] eqn:Hloop; [|done].
      simpl in Hcall. injection Hcall as <-.
      by eapply capacity_kept_Plain_release_buffers_loop.
    + unfold Tracking.release_buffers in Hcall.
      destruct (Tracking.release_buffers_loop _ _ _ _) as [s2|] eqn:Hloop; [|done].
      simpl in Hcall. injection Hcall as <-.
      by eapply capacity_kept_Tracking_release_buffers_loop.
Qed.

(** X9.  No call other than [reset()] removes a [Buffer] object, changes its
    capacity or exchanges its block: through every sequence of calls without
    [reset()], with either pair of release functions, a handle keeps pointing
    to a record of the same capacity. *)
Theorem capacity_is_fixed calls s s' :
  forallb (λ c, negb (is_reset c)) calls = true →
  run Plain.release_buffer Plain.release_buffers calls s = Some s'
  ∨ run Tracking.release_buffer Tracking.release_buffers calls s = Some s' →
  capacity_kept s s'.
Proof.
  revert s. induction calls as [|c calls IH]; intros s Hcalls Hrun; simpl in *.
  - destruct Hrun as [[= <-]|[= <-]]; apply capacity_kept_refl.
  - apply andb_true_iff in Hcalls as [Hc Hcalls]. apply negb_true_iff in Hc.
    destruct Hrun as [Hrun|Hrun].
    + destruct (call Plain.release_buffer _ c s) as [s1|] eqn:Hcall; [|done].
      simpl in Hrun. eapply capacity_kept_trans.
      * apply (capacity_kept_call c); [done|by left].
      * apply IH; [done|by left].
    + destruct (call Tracking.release_buffer _ c s) as [s1|] eqn:Hcall; [|done].
      simpl in Hrun. eapply capacity_kept_trans.
      * apply (capacity_kept_call c); [done|by right].
      * apply IH; [done|by right].
Qed.

Lemma capacity_is_fixed_witness :
  ∃ s',
    run Tracking.release_buffer Tracking.release_buffers
      [CallSingleBuffer 50 9; CallReleaseBuffer (Some 1%nat) 12; CallSingleBuffer 300 20]
      example_pool = Some s'
    ∧ capacity_kept example_pool s'.
Proof.
  eexists. split; [reflexivity|].
  apply (capacity_is_fixed
           [CallSingleBuffer 50 9; CallReleaseBuffer (Some 1%nat) 12;
            CallSingleBuffer 300 20] example_pool); [reflexivity|].
  right. reflexivity.
Defined.







(** ** The loops of main.cpp *)

Lemma sweep_due_timeout_0 now s : m_cleanup_timeout s = 0 → sweep_due now s = false.
Proof. intros H0. unfold sweep_due. rewrite H0. simpl. by rewrite andb_false_r. Qed.

Lemma allocated_deref_store h a b x :
  (a < length h)%nat → m_allocated b = m_allocated (deref h a) →
  m_allocated (deref (<[a := b]> h) x) = m_allocated (deref h x).
Proof. intros Hlt Hb. rewrite deref_insert by done. case_decide; by subst. Qed.

Section single_turn.
Context (release_buffer : BufferPtr → Z → State → option (bool * State)).
Hypothesis release_in_use : ∀ a b t s,
  heap s !! a = Some b → m_in_use b = true →
  release_buffer (Some a) t s
  = Some (true, mark_free a b t (with_buffers (<[a := true]> (m_buffers s)) s)).

(** One turn of [run_single_buffer_test] on a pool with no record in use and
    no timeout. *)
Lemma single_turn s top size t1 t2 :
  pool_inv s → all_free s → m_cleanup_timeout s = 0 → top_capacity s top → 0 ≤ size →
  ∃ a s1 s2,
    single_buffer size t1 s = Some (Some a, s1)
    ∧ release_buffer (Some a) t2 s1 = Some (true, s2)
    ∧ pool_inv s2 ∧ all_free s2 ∧ m_cleanup_timeout s2 = 0
    ∧ top_capacity s2 (Z.max top size)
    ∧ m_buffers_in_use s2 = m_buffers_in_use s
    ∧ length (m_size_list s2)
      = (length (m_size_list s) + (if (top <? size)%Z then 1 else 0))%nat.
Proof.
  intros Hinv Hfree H0 [Hle Htop] Hsize.
  pose proof Hinv as (Hinit & Hlive & Hsorted & Hrest).
  rewrite Forall_forall in Hlive.
  destruct (Z.ltb_spec top size) as [Hlt|Hge].
  - (* the request exceeds every capacity: a new record *)
    assert (m_size_list s !! find_free size s = None) as Hnone.
    { destruct (m_size_list s !! find_free size s) as [a|] eqn:Ha; [|done].
      destruct (find_free_found size s Hsorted a Ha) as [_ Hfit].
      specialize (Hle a ltac:(by eapply list_elem_of_lookup_2)). lia. }
    set (a := length (heap s)).
    set (b := mkBuffer true size size (uint32_wrap (0 + 1)) 0 (Some size)).
    assert (heap (grow size s) !! a = Some b) as Hb.
    { simpl. rewrite lookup_app_r by (unfold a; lia). unfold a. by rewrite Nat.sub_diag. }
    assert (∀ x, x ∈ m_size_list (grow size s) ↔ x ∈ m_size_list s ∨ x = a) as Hmem.
    { intros x. simpl. rewrite sort_Permutation, elem_of_app, list_elem_of_singleton. done. }
    assert (pool_inv (grow size s)) as Hinv1 by (by apply pool_inv_grow).
    exists a, (grow size s),
      (mark_free a b t2
         (with_buffers (<[a := true]> (m_buffers (grow size s))) (grow size s))).
    split_and!.
    + rewrite single_buffer_grow by done. by rewrite sweep_due_timeout_0.
    + by apply release_in_use.
    + apply pool_inv_mark_free; [|done]. destruct Hinv1 as [Hi Hok]. split; [done|].
      apply pool_ok_register; [done|]. apply Hmem. by right.
    + intros x. simpl. rewrite deref_insert by (by eapply lookup_lt_Some).
      case_decide; [done|].
      destruct (decide (x < length (heap s))%nat).
      * rewrite deref_app_l by done. apply Hfree.
      * rewrite deref_ge; [done|]. rewrite length_app. simpl. unfold a in *. lia.
    + done.
    + rewrite Z.max_r by lia.
      assert (∀ x, m_allocated (deref (heap (mark_free a b t2
                 (with_buffers (<[a := true]> (m_buffers (grow size s))) (grow size s)))) x)
                   = m_allocated (deref (heap (grow size s)) x)) as Hsame.
      { intros x. simpl. apply allocated_deref_store.
        - rewrite length_app. simpl. unfold a. lia.
        - unfold a. by rewrite deref_app_new. }
      split.
      * intros x Hx. rewrite Hsame. change (m_size_list (mark_free _ _ _ _))
          with (m_size_list (grow size s)) in Hx. apply Hmem in Hx as [Hx| ->].
        -- simpl. rewrite deref_app_l by (by apply Hlive). specialize (Hle x Hx). lia.
        -- rewrite (deref_lookup _ _ _ Hb). simpl. lia.
      * left. exists a. split; [apply Hmem; by right|].
        rewrite Hsame. by rewrite (deref_lookup _ _ _ Hb).
    + simpl. lia.
    + simpl. rewrite sort_Permutation, length_app. simpl. lia.
  - (* some record is large enough, and all are free: reuse *)
    assert (∃ a, m_size_list s !! find_free size s = Some a) as [a Ha].
    { destruct (m_size_list s !! find_free size s) as [a|] eqn:Ha; [by eexists|].
      exfalso. destruct Htop as [(a0 & Ha0 & Hcap)|[_ ->]]; [|lia].
      destruct (find_free_none size s Hsorted a0 Ha Ha0) as [?|Hu]; [lia|].
      by rewrite Hfree in Hu. }
    assert (a ∈ m_size_list s) as Hal by (by eapply list_elem_of_lookup_2).
    assert (a < length (heap s))%nat as Hlt by (by apply Hlive).
    set (b := mkBuffer true size (m_allocated (deref (heap s) a))
                (uint32_wrap (m_usage_count (deref (heap s) a) + 1))
                (m_last_used (deref (heap s) a)) (m_buffer (deref (heap s) a))).
    assert (heap (reuse size a s) !! a = Some b) as Hb.
    { simpl. by apply list_lookup_insert_eq. }
    assert (pool_inv (reuse size a s)) as Hinv1 by (by apply pool_inv_reuse).
    assert (∀ x, m_allocated (deref (heap (mark_free a b t2
               (with_buffers (<[a := true]> (m_buffers (reuse size a s))) (reuse size a s)))) x)
                 = m_allocated (deref (heap s) x)) as Hsame.
    { intros x. simpl. rewrite allocated_deref_store.
      - by apply allocated_deref_store.
      - by rewrite length_insert.
      - rewrite deref_insert by done. by rewrite decide_True. }
    exists a, (reuse size a s),
      (mark_free a b t2
         (with_buffers (<[a := true]> (m_buffers (reuse size a s))) (reuse size a s))).
    split_and!.
    + by apply single_buffer_reuse.
    + by apply release_in_use.
    + apply pool_inv_mark_free; [|done]. destruct Hinv1 as [Hi Hok]. split; [done|].
      by apply pool_ok_register.
    + intros x. simpl. rewrite deref_insert by (by rewrite length_insert).
      case_decide; [done|]. rewrite deref_insert by done. rewrite decide_False by done.
      apply Hfree.
    + done.
    + rewrite Z.max_l by lia. split.
      * intros x Hx. rewrite Hsame. by apply Hle.
      * destruct Htop as [(a0 & Ha0 & Hcap)|[Hnil _]].
        -- left. exists a0. split; [done|]. by rewrite Hsame.
        -- rewrite Hnil in Hal. by apply elem_of_nil in Hal.
    + simpl. lia.
    + simpl. lia.
Qed.

Lemma run_single_buffer_test_spec requests s top :
  pool_inv s → all_free s → m_cleanup_timeout s = 0 → top_capacity s top →
  Forall (λ r, 0 ≤ r.1.1) requests →
  ∃ s',
    run_single_buffer_test release_buffer requests s = Some s'
    ∧ pool_inv s' ∧ all_free s'
    ∧ m_buffers_in_use s' = m_buffers_in_use s
    ∧ length (m_size_list s')
      = (length (m_size_list s) + new_highs top (requests.*1.*1))%nat.
Proof.
  revert s top. induction requests as [|[[size t1] t2] rest IH];
    intros s top Hinv Hfree H0 Htop Hsizes; simpl.
  - exists s. split_and!; [done..|lia].
  - apply Forall_cons in Hsizes as [Hsize Hsizes]. simpl in Hsize.
    destruct (single_turn s top size t1 t2 Hinv Hfree H0 Htop Hsize)
      as (a & s1 & s2 & -> & Hrel & Hinv2 & Hfree2 & H02 & Htop2 & Hc2 & Hlen2).
    simpl. rewrite Hrel. simpl.
    destruct (IH s2 (Z.max top size) Hinv2 Hfree2 H02 Htop2 Hsizes)
      as (s' & -> & Hinv' & Hfree' & Hc' & Hlen').
    exists s'. split_and!; [done|done|done|congruence|].
    rewrite Hlen', Hlen2. change (list_fmap _ _ fst (list_fmap _ _ fst rest))
      with (rest.*1.*1).
    destruct (Z.ltb_spec top size).
    + rewrite Z.max_r by lia. lia.
    + rewrite Z.max_l by lia. lia.
Qed.
End single_turn.

Lemma all_free_startup : all_free (initialize startup).
Proof. intros a. by rewrite deref_ge by (simpl; lia). Qed.

(** X12.  [run_single_buffer_test] on a fresh pool: whatever sizes are drawn,
    every turn succeeds, no buffer is in use at the end, and the pool has
    allocated one buffer for each size that exceeded all the sizes before it
    and none for the others.  This holds with either release function. *)
Theorem run_single_buffer_test_allocates_new_highs requests :
  Forall (λ r, 0 ≤ r.1.1) requests →
  (∃ s',
     run_single_buffer_test Plain.release_buffer requests (initialize startup) = Some s'
     ∧ buffers_available s' = Z.of_nat (new_highs (-1) (requests.*1.*1))
     ∧ m_buffers_in_use s' = 0 ∧ all_free s')
  ∧ (∃ s',
       run_single_buffer_test Tracking.release_buffer requests (initialize startup)
       = Some s'
       ∧ buffers_available s' = Z.of_nat (new_highs (-1) (requests.*1.*1))
       ∧ m_buffers_in_use s' = 0 ∧ all_free s').
Proof.
  intros Hsizes.
  assert (top_capacity (initialize startup) (-1)) as Htop.
  { split; [by intros a Ha%elem_of_nil|by right]. }
  split.
  - destruct (run_single_buffer_test_spec Plain.release_buffer) with
      (requests := requests) (s := initialize startup) (top := -1)
      as (s' & Hrun & _ & Hfree & Hc & Hlen);
      [|apply pool_inv_initialize_startup|apply all_free_startup|done|done|done|].
    { intros a b t s Hb Hu. simpl. by rewrite Hb. }
    exists s'. split_and!; [done| |done|done].
    unfold buffers_available. rewrite Hlen. simpl. done.
  - destruct (run_single_buffer_test_spec Tracking.release_buffer) with
      (requests := requests) (s := initialize startup) (top := -1)
      as (s' & Hrun & _ & Hfree & Hc & Hlen);
      [|apply pool_inv_initialize_startup|apply all_free_startup|done|done|done|].
    { intros a b t s Hb Hu. simpl. rewrite Hb. simpl. by rewrite Hu. }
    exists s'. split_and!; [done| |done|done].
    unfold buffers_available. rewrite Hlen. simpl. done.
Qed.

Lemma run_single_buffer_test_allocates_new_highs_witness :
  (∃ s',
     run_single_buffer_test Plain.release_buffer
       [(5, 0, 1); (3, 2, 3); (9, 4, 5); (9, 6, 7)] (initialize startup) = Some s'
     ∧ buffers_available s' = Z.of_nat (new_highs (-1) [5; 3; 9; 9])
     ∧ m_buffers_in_use s' = 0 ∧ all_free s')
  ∧ (∃ s',
       run_single_buffer_test Tracking.release_buffer
         [(5, 0, 1); (3, 2, 3); (9, 4, 5); (9, 6, 7)] (initialize startup) = Some s'
       ∧ buffers_available s' = Z.of_nat (new_highs (-1) [5; 3; 9; 9])
       ∧ m_buffers_in_use s' = 0 ∧ all_free s').
Proof.
  apply (run_single_buffer_test_allocates_new_highs
           [(5, 0, 1); (3, 2, 3); (9, 4, 5); (9, 6, 7)]).
  repeat constructor; simpl; lia.
Defined.

Lemma acquire_all_spec requests s :
  pool_inv s →
  ∃ addrs s1,
    acquire_all requests s = Some (Some <$> addrs, s1)
    ∧ pool_inv s1
    ∧ NoDup addrs
    ∧ length addrs = length requests
    ∧ (∀ a, a ∈ addrs →
         m_in_use (deref (heap s) a) = false ∧ m_in_use (deref (heap s1) a) = true)
    ∧ (∀ x, x ∉ addrs → m_in_use (deref (heap s1) x) = m_in_use (deref (heap s) x))
    ∧ m_buffers_in_use s1 = m_buffers_in_use s + Z.of_nat (length requests).
Proof.
  revert s. induction requests as [|[size t] rest IH]; intros s Hinv; simpl.
  - exists [], s. split_and!; [done|done|constructor|done| |done|lia].
    by intros a Ha%elem_of_nil.
  - destruct (single_buffer_total size t s Hinv) as (a & s0 & Hcall & Hinv0).
    rewrite Hcall. simpl.
    destruct (single_buffer_frame _ _ _ _ _ Hinv Hcall) as (Hfree & Hused & Hframe).
    destruct (single_buffer_counter _ _ _ _ _ Hinv Hcall) as [Hc _].
    destruct (IH s0 Hinv0) as (addrs & s1 & Hrest & Hinv1 & Hnd & Hlen & Hin & Hout & Hc1).
    rewrite Hrest. simpl. exists (a :: addrs), s1.
    assert (a ∉ addrs) as Hna.
    { intros Ha. destruct (Hin a Ha) as [Hf _]. congruence. }
    split_and!; [done|done|by constructor|simpl; lia| | |lia].
    + intros x [->|Hx]%elem_of_cons.
      * split; [done|]. by rewrite Hout.
      * destruct (Hin x Hx) as [Hf Hu]. split; [|done].
        rewrite <-Hframe; [done|]. intros ->. done.
    + intros x [Hxa Hx]%not_elem_of_cons. rewrite Hout by done. by rewrite Hframe.
Qed.

Lemma Plain_release_buffers_loop_spec addrs time i s :
  (∀ a, a ∈ addrs → (a < length (heap s))%nat) →
  ∃ s',
    Plain.release_buffers_loop (Some <$> addrs) time i s = Some s'
    ∧ (∀ a, a ∈ addrs → m_in_use (deref (heap s') a) = false)
    ∧ (∀ x, x ∉ addrs → deref (heap s') x = deref (heap s) x)
    ∧ m_buffers_in_use s' = m_buffers_in_use s - Z.of_nat (length addrs).
Proof.
  revert i s. induction addrs as [|a addrs IH]; intros i s Hlive; simpl.
  - exists s. split_and!; [done| |done|lia]. by intros a Ha%elem_of_nil.
  - destruct (lookup_lt_is_Some_2 (heap s) a) as [b Hb]; [apply Hlive; by left|].
    rewrite Hb. simpl.
    destruct (IH (S i) (mark_free a b (time i) s)) as (s' & Hloop & Hin & Hout & Hc).
    { intros x Hx. simpl. rewrite length_insert. apply Hlive. by right. }
    exists s'. split_and!; [exact Hloop| | |simpl in Hc; lia].
    + intros x [->|Hx]%elem_of_cons; [|by apply Hin].
      destruct (decide (a ∈ addrs)); [by apply Hin|].
      rewrite Hout by done. simpl. rewrite deref_insert by (by eapply lookup_lt_Some).
      by rewrite decide_True.
    + intros x [Hxa Hx]%not_elem_of_cons. rewrite Hout by done. simpl.
      rewrite deref_insert by (by eapply lookup_lt_Some). by rewrite decide_False.
Qed.

Lemma Tracking_release_buffers_loop_in_use addrs time i s :
  NoDup addrs →
  (∀ a, a ∈ addrs → (a < length (heap s))%nat ∧ m_in_use (deref (heap s) a) = true) →
  Tracking.release_buffers_loop (Some <$> addrs) time i s
  = Plain.release_buffers_loop (Some <$> addrs) time i s.
Proof.
  revert i s. induction addrs as [|a addrs IH]; intros i s Hnd Hin; simpl; [done|].
  apply NoDup_cons in Hnd as [Hna Hnd].
  destruct (Hin a ltac:(by left)) as [Hlt Hu].
  destruct (lookup_lt_is_Some_2 (heap s) a Hlt) as [b Hb]. rewrite Hb. simpl.
  rewrite (deref_lookup _ _ _ Hb) in Hu. rewrite Hu. apply (IH (S i)); [done|].
  intros x Hx. destruct (Hin x ltac:(by right)) as [Hltx Hux]. simpl.
  rewrite length_insert. split; [done|].
  rewrite deref_insert by done. rewrite decide_False; [done|]. intros ->. done.
Qed.

(** One turn of [run_release_buffers_test] on a pool with no record in use. *)
Lemma release_buffers_turn requests time s :
  pool_inv s → all_free s →
  ∃ addrs s1 s',
    acquire_all requests s = Some (Some <$> addrs, s1)
    ∧ Plain.release_buffers (Some <$> addrs) time s1 = Some (true, s')
    ∧ Tracking.release_buffers (Some <$> addrs) time s1 = Some (true, s')
    ∧ NoDup addrs ∧ length addrs = length requests
    ∧ pool_inv s' ∧ all_free s'
    ∧ m_buffers_in_use s' = m_buffers_in_use s
    ∧ (length requests ≤ length (m_size_list s'))%nat.
Proof.
  intros Hinv Hfree.
  destruct (acquire_all_spec requests s Hinv)
    as (addrs & s1 & Hacq & Hinv1 & Hnd & Hlen & Hin & Hout & Hc1).
  assert (∀ a, a ∈ addrs → a ∈ m_size_list s1) as Hlist.
  { intros a Ha. destruct Hinv1 as [_ Hok]. apply (pool_ok_in_use _ _ _ _ Hok).
    by apply Hin. }
  assert (∀ a, a ∈ addrs → (a < length (heap s1))%nat) as Hlive.
  { intros a Ha. destruct Hinv1 as (_ & Hl & _). rewrite Forall_forall in Hl.
    by apply Hl, Hlist. }
  destruct (Plain_release_buffers_loop_spec addrs time 0%nat s1 Hlive)
    as (s' & Hloop & Hrel & Hkeep & Hc').
  assert (Plain.release_buffers (Some <$> addrs) time s1 = Some (true, s')) as Hplain.
  { unfold Plain.release_buffers. by rewrite Hloop. }
  assert (m_size_list s' = m_size_list s1) as Hsl.
  { clear -Hloop. revert Hloop. generalize 0%nat. revert s1.
    induction addrs as [|a addrs IH]; intros s1 i; simpl; [by intros [= <-]|].
    destruct (heap s1 !! a) as [b|]; [|done]. simpl. intros Hloop.
    by rewrite (IH _ _ Hloop). }
  exists addrs, s1, s'. split_and!; [done|done| |done|done| | |lia|].
  - unfold Tracking.release_buffers.
    rewrite Tracking_release_buffers_loop_in_use; [by rewrite Hloop|done|].
    intros a Ha. split; [by apply Hlive|by apply Hin].
  - by eapply pool_inv_Plain_release_buffers.
  - intros x. destruct (decide (x ∈ addrs)) as [Hx|Hx]; [by apply Hrel|].
    rewrite Hkeep by done. rewrite Hout by done. apply Hfree.
  - rewrite Hsl, <-Hlen. apply submseteq_length, NoDup_submseteq; [done|].
    intros a Ha. by apply Hlist.
Qed.

(** X13.  [run_release_buffers_test] on a well-formed pool with no buffer in
    use: every turn succeeds, the batch release with and without the test
    gives the same pool, and at the end no buffer is in use, the counter is
    back at its value and the pool holds at least as many buffers as the last
    turn asked for. *)
Theorem run_release_buffers_test_returns_all turns s :
  pool_inv s → all_free s →
  ∃ s',
    run_release_buffers_test Plain.release_buffers turns s = Some s'
    ∧ run_release_buffers_test Tracking.release_buffers turns s = Some s'
    ∧ pool_inv s' ∧ all_free s'
    ∧ m_buffers_in_use s' = m_buffers_in_use s
    ∧ (∀ requests time, last turns = Some (requests, time) →
         Z.of_nat (length requests) ≤ buffers_available s').
Proof.
  revert s. induction turns as [|[requests time] rest IH]; intros s Hinv Hfree.
  - exists s. by split_and!.
  - destruct (release_buffers_turn requests time s Hinv Hfree)
      as (addrs & s1 & s2 & Hacq & Hplain & Htrack & Hnd & Hlen & Hinv2 & Hfree2 & Hc2 & Hsz).
    destruct (IH s2 Hinv2 Hfree2) as (s' & Hp & Ht & Hinv' & Hfree' & Hc' & Hlast).
    exists s'. simpl. rewrite Hacq. simpl. rewrite Hplain, Htrack. simpl.
    split_and!; [done|done|done|done|congruence|].
    intros requests' time' Hl. destruct rest as [|turn rest].
    + simpl in Hl. injection Hl as <- <-. simpl in Hp. injection Hp as <-.
      unfold buffers_available. lia.
    + by apply (Hlast requests' time').
Qed.

Lemma run_release_buffers_test_returns_all_witness :
  ∃ s',
    run_release_buffers_test Plain.release_buffers
      [([(5, 0); (3, 1); (9, 2)], λ i, 3 + Z.of_nat i);
       ([(4, 6); (4, 7)], λ i, 8 + Z.of_nat i)] (initialize startup) = Some s'
    ∧ run_release_buffers_test Tracking.release_buffers
        [([(5, 0); (3, 1); (9, 2)], λ i, 3 + Z.of_nat i);
         ([(4, 6); (4, 7)], λ i, 8 + Z.of_nat i)] (initialize startup) = Some s'
    ∧ pool_inv s' ∧ all_free s'
    ∧ m_buffers_in_use s' = m_buffers_in_use (initialize startup)
    ∧ (∀ requests time,
         last [([(5, 0); (3, 1); (9, 2)], λ i, 3 + Z.of_nat i);
               ([(4, 6); (4, 7)], λ i : nat, 8 + Z.of_nat i)] = Some (requests, time) →
         Z.of_nat (length requests) ≤ buffers_available s').
Proof.
  apply (run_release_buffers_test_returns_all
           [([(5, 0); (3, 1); (9, 2)], λ i, 3 + Z.of_nat i);
            ([(4, 6); (4, 7)], λ i, 8 + Z.of_nat i)] (initialize startup)).
  - apply pool_inv_initialize_startup.
  - apply all_free_startup.
Defined.

(** ** The contents of the blocks *)

Lemma Bytes_blocks_ok_deref s m :
  Bytes.blocks_ok s m ↔ ∀ a, Bytes.block_ok m a (deref (heap s) a).
Proof.
  unfold Bytes.blocks_ok. rewrite Forall_forall. split.
  - intros Hok a. destruct (decide (a < length (heap s))%nat) as [Hlt|Hge].
    + apply Hok, elem_of_seq. lia.
    + rewrite deref_ge by lia. by left.
  - intros Hok a _. apply Hok.
Qed.

(** The pool part of the result is that of [single_buffer]; the blocks change
    only when a record is created. *)
Lemma Bytes_single_buffer_unprotected_spec min_size now s m :
  Bytes.single_buffer_unprotected min_size now s m
  = '(h, s') ← single_buffer min_size now s;
    Some (h, s',
          match m_size_list s !! find_free min_size s with
          | Some _ => m
          | None =>
              <[length (heap s) :=
                  replicate (Z.to_nat min_size)
                    (if policy_is_active ZeroBuffer s then Some 0 else None)]> m
          end).
Proof.
  unfold Bytes.single_buffer_unprotected, single_buffer, single_buffer_unprotected.
  destruct (m_initialized s); [|done]. cbn [negb].
  destruct (m_size_list s !! find_free min_size s) as [a|].
  - by destruct (m_allocated (deref (heap s) a) <? min_size).
  - assert ((if policy_is_active ZeroBuffer s
             then Bytes.memset (replicate (Z.to_nat min_size) None) 0 (Z.to_nat min_size)
             else Some (replicate (Z.to_nat min_size) None))
            = Some (replicate (Z.to_nat min_size)
                      (if policy_is_active ZeroBuffer s then Some 0 else None))) as ->.
    { destruct (policy_is_active ZeroBuffer s); [|done]. unfold Bytes.memset.
      rewrite decide_True by (by rewrite length_replicate).
      rewrite drop_ge by (by rewrite length_replicate). by rewrite app_nil_r. }
    cbn [mbind option_bind].
    destruct (policy_is_active DropOld (grow min_size s)
              && negb (m_cleanup_timeout (grow min_size s) =? 0)); [|done].
    destruct (m_cleanup_timeout (grow min_size s) <? now - m_last_cleanup_check (grow min_size s));
      [|done].
    by destruct (garbage_collect now (with_last_cleanup_check now (grow min_size s))).
Qed.

(** The record behind the handle that an acquisition returns. *)
Lemma single_buffer_record s min_size now a s' :
  pool_inv s → single_buffer min_size now s = Some (Some a, s') →
  (m_size_list s !! find_free min_size s = Some a
   ∧ (a < length (heap s))%nat
   ∧ min_size ≤ m_allocated (deref (heap s) a)
   ∧ deref (heap s') a
     = mkBuffer true min_size (m_allocated (deref (heap s) a))
                (uint32_wrap (m_usage_count (deref (heap s) a) + 1))
                (m_last_used (deref (heap s) a)) (m_buffer (deref (heap s) a)))
  ∨ (m_size_list s !! find_free min_size s = None
     ∧ a = length (heap s)
     ∧ deref (heap s') a
       = mkBuffer true min_size min_size (uint32_wrap (0 + 1)) 0 (Some min_size)).
Proof.
  intros Hinv Hcall. pose proof Hinv as (Hinit & Hlive & Hsorted & Hrest).
  destruct (single_buffer_cases _ _ _ _ _ Hcall)
    as [(a' & Ha & [= <-] & ->)|[(Ha & _ & [= ->] & ->)|(Ha & _ & [= ->] & Hgc)]].
  - left. destruct (find_free_found min_size s Hsorted a Ha) as [_ Hfit].
    assert (a < length (heap s))%nat as Hlt.
    { rewrite Forall_forall in Hlive. by eapply Hlive, list_elem_of_lookup_2. }
    split_and!; [done..|]. simpl. rewrite deref_insert by done. by rewrite decide_True.
  - right. split_and!; [done..|]. simpl. by rewrite deref_app_new.
  - right. apply drop_buffers_spec in Hgc as (-> & _).
    split_and!; [done..|]. simpl. by rewrite deref_app_new.
Qed.

Lemma deref_in_use_lookup h a :
  m_in_use (deref h a) = true → h !! a = Some (deref h a).
Proof.
  unfold deref. by destruct (h !! a).
Qed.

(** [single_buffer_from(const uint8_t*, uint32_t)] with a source of at least
    [n] bytes, [n] positive: both listings copy the bytes to the start of the
    block of the record returned. *)
Lemma Bytes_single_buffer_from_spec src n now s m :
  pool_inv s → Bytes.blocks_ok s m → 0 < n → (Z.to_nat n ≤ length src)%nat →
  ∃ a s' block,
    single_buffer n now s = Some (Some a, s')
    ∧ Bytes.Tracking.single_buffer_from src n now s m
      = Some (Some a, s', <[a := (Some <$> take (Z.to_nat n) src) ++ drop (Z.to_nat n) block]>
                            (match m_size_list s !! find_free n s with
                             | Some _ => m
                             | None => <[a := block]> m
                             end))
    ∧ Bytes.Plain.single_buffer_from src n now s m
      = Bytes.Tracking.single_buffer_from src n now s m
    ∧ match m_size_list s !! find_free n s with
      | Some _ => m !! a = Some block
      | None => block = replicate (Z.to_nat n)
                          (if policy_is_active ZeroBuffer s then Some 0 else None)
      end
    ∧ length block = Z.to_nat (m_allocated (deref (heap s') a))
    ∧ m_buffer (deref (heap s') a) = Some (m_allocated (deref (heap s') a))
    ∧ m_in_use (deref (heap s') a) = true
    ∧ m_data_size (deref (heap s') a) = n
    ∧ n ≤ m_allocated (deref (heap s') a)
    ∧ pool_inv s'
    ∧ (∀ x, x ≠ a → deref (heap s') x = deref (heap s) x).
Proof.
  intros Hinv Hblocks Hn Hsrc.
  destruct (single_buffer_total n now s Hinv) as (a & s' & Hcall & Hinv').
  destruct (single_buffer_frame _ _ _ _ _ Hinv Hcall) as (_ & Hused & Hframe).
  pose proof (deref_in_use_lookup _ _ Hused) as Hb.
  rewrite Bytes_blocks_ok_deref in Hblocks.
  unfold Bytes.Plain.single_buffer_from, Bytes.Tracking.single_buffer_from.
  rewrite Bytes_single_buffer_unprotected_spec, Hcall. cbn [mbind option_bind].
  unfold Bytes.copy_to. cbn [mbind option_bind]. rewrite Hb. cbn [mbind option_bind].
  unfold Bytes.rw, Bytes.data. rewrite Hused. cbn [mbind option_bind].
  destruct (single_buffer_record _ _ _ _ _ Hinv Hcall)
    as [(Ha & Hlt & Hfit & Hrec)|(Ha & -> & Hrec)]; rewrite Ha.
  - destruct (Hblocks a) as [[_ H0]|[Hbuf Hlen]]; [lia|].
    destruct (m !! a) as [block|] eqn:Hblock; [|done]. simpl in Hlen.
    injection Hlen as Hlen.
    exists a, s', block. rewrite Hrec. cbn [m_buffer m_allocated m_in_use m_data_size].
    rewrite Hbuf. cbn [mbind option_bind]. rewrite Hblock. cbn [mbind option_bind].
    unfold Bytes.memcpy. rewrite decide_True by (split; lia). cbn [mbind option_bind].
    by split_and!.
  - exists (length (heap s)), s',
      (replicate (Z.to_nat n) (if policy_is_active ZeroBuffer s then Some 0 else None)).
    rewrite Hrec. cbn [m_buffer m_allocated m_in_use m_data_size mbind option_bind].
    rewrite lookup_insert_eq. cbn [mbind option_bind].
    unfold Bytes.memcpy. rewrite length_replicate.
    rewrite decide_True by (split; lia). cbn [mbind option_bind].
    split_and!; done || lia.
Qed.

Lemma Bytes_blocks_ok_update s s' (m m' : Bytes.Blocks) a :
  Bytes.blocks_ok s m →
  (∀ x, x ≠ a → deref (heap s') x = deref (heap s) x) →
  (∀ x, x ≠ a → m' !! x = m !! x) →
  Bytes.block_ok m' a (deref (heap s') a) →
  Bytes.blocks_ok s' m'.
Proof.
  rewrite !Bytes_blocks_ok_deref. intros Hok Hrec Hm Ha x.
  destruct (decide (x = a)) as [->|Hne]; [done|].
  unfold Bytes.block_ok. rewrite Hrec, Hm by done. apply Hok.
Qed.

(** X14.  [single_buffer_from(const char* data, size_t size)] keeps the lower
    32 bits of [size].  When that number [k] is positive and [data] has [k]
    bytes, the call succeeds in both listings with the same result: the
    handle is the one [single_buffer(k)] returns, [size()] of the record is
    [k], [ro()] gives its block, the first [k] bytes of the block are the
    first [k] bytes of [data], no other block is written, and the pool and the
    blocks are well formed again. *)
Theorem single_buffer_from_round_trip src n now s m :
  pool_inv s → Bytes.blocks_ok s m →
  0 < uint32_wrap n → (Z.to_nat (uint32_wrap n) ≤ length src)%nat →
  ∃ a s' m',
    Bytes.Tracking.single_buffer_from_chars src n now s m = Some (Some a, s', m')
    ∧ Bytes.Plain.single_buffer_from_chars src n now s m = Some (Some a, s', m')
    ∧ single_buffer (uint32_wrap n) now s = Some (Some a, s')
    ∧ Bytes.size (deref (heap s') a) = uint32_wrap n
    ∧ Bytes.ro (deref (heap s') a) = Some (Some (m_allocated (deref (heap s') a)))
    ∧ Bytes.contents m' a (Z.to_nat (uint32_wrap n))
      = Some (Some <$> take (Z.to_nat (uint32_wrap n)) src)
    ∧ (∀ x, x ≠ a → m' !! x = m !! x)
    ∧ pool_inv s' ∧ Bytes.blocks_ok s' m'.
Proof.
  intros Hinv Hblocks Hn Hsrc.
  destruct (Bytes_single_buffer_from_spec src (uint32_wrap n) now s m Hinv Hblocks Hn Hsrc)
    as (a & s' & block & Hcall & Htrack & Hplain & Hblock & Hlen & Hbuf & Hused & Hsize
        & Hfit & Hinv' & Hframe).
  assert (∀ x, x ≠ a →
            <[a := (Some <$> take (Z.to_nat (uint32_wrap n)) src)
                   ++ drop (Z.to_nat (uint32_wrap n)) block]>
              (match m_size_list s !! find_free (uint32_wrap n) s with
               | Some _ => m
               | None => <[a := block]> m
               end) !! x = m !! x) as Hother.
  { intros x Hx. rewrite lookup_insert_ne by done.
    destruct (m_size_list s !! find_free (uint32_wrap n) s); [done|].
    by rewrite lookup_insert_ne. }
  eexists a, s', _. unfold Bytes.Tracking.single_buffer_from_chars,
    Bytes.Plain.single_buffer_from_chars. rewrite Hplain.
  split_and!; [exact Htrack|exact Htrack|done|done| | |exact Hother|done|].
  - unfold Bytes.ro. by rewrite Hused, Hbuf.
  - unfold Bytes.contents. rewrite lookup_insert_eq. simpl. f_equal.
    rewrite take_app_le by (rewrite length_fmap, length_take; lia).
    rewrite take_ge; [done|]. rewrite length_fmap, length_take. lia.
  - apply (Bytes_blocks_ok_update s s' m _ a Hblocks Hframe Hother).
    right. split; [done|]. rewrite lookup_insert_eq. simpl. f_equal.
    rewrite length_app, length_fmap, length_take, length_drop. lia.
Qed.

Lemma single_buffer_from_round_trip_witness :
  ∃ a s' m',
    Bytes.Tracking.single_buffer_from_chars [104; 105; 33] (2 ^ 32 + 2) 7
      (initialize startup) ∅ = Some (Some a, s', m')
    ∧ Bytes.Plain.single_buffer_from_chars [104; 105; 33] (2 ^ 32 + 2) 7
        (initialize startup) ∅ = Some (Some a, s', m')
    ∧ single_buffer (uint32_wrap (2 ^ 32 + 2)) 7 (initialize startup) = Some (Some a, s')
    ∧ Bytes.size (deref (heap s') a) = uint32_wrap (2 ^ 32 + 2)
    ∧ Bytes.ro (deref (heap s') a) = Some (Some (m_allocated (deref (heap s') a)))
    ∧ Bytes.contents m' a (Z.to_nat (uint32_wrap (2 ^ 32 + 2)))
      = Some (Some <$> take (Z.to_nat (uint32_wrap (2 ^ 32 + 2))) [104; 105; 33])
    ∧ (∀ x, x ≠ a → m' !! x = (∅ : Bytes.Blocks) !! x)
    ∧ pool_inv s' ∧ Bytes.blocks_ok s' m'.
Proof.
  apply (single_buffer_from_round_trip [104; 105; 33] (2 ^ 32 + 2) 7 (initialize startup) ∅).
  - apply pool_inv_initialize_startup.
  - apply (bool_decide_unpack _); vm_compute; reflexivity.
  - vm_compute; reflexivity.
  - vm_compute; lia.
Defined.

(** X15.  The [ZeroBuffer] policy reaches fresh blocks only.  On a well-formed
    pool [single_buffer_unprotected] succeeds and writes no block but that of
    the record it returns.  When a free record of [m_size_list] is large
    enough, the record returned is one of [m_size_list] and no byte is written
    at all, whatever the policies: the block is handed out as the last user
    left it.  When there is none, the record is new and its block is
    [min_size] bytes, all 0 with [ZeroBuffer] active and all unwritten
    without. *)
Theorem ZeroBuffer_zeroes_fresh_blocks_only min_size now s (m : Bytes.Blocks) :
  pool_inv s →
  ∃ a s' m',
    Bytes.single_buffer_unprotected min_size now s m = Some (Some a, s', m')
    ∧ (∀ x, x ≠ a → m' !! x = m !! x)
    ∧ (((∃ x, x ∈ m_size_list s ∧ m_in_use (deref (heap s) x) = false
              ∧ min_size ≤ m_allocated (deref (heap s) x))
        ∧ a ∈ m_size_list s ∧ m' = m)
       ∨ ((∀ x, x ∈ m_size_list s →
             m_in_use (deref (heap s) x) = true
             ∨ m_allocated (deref (heap s) x) < min_size)
          ∧ a = length (heap s)
          ∧ m' !! a = Some (replicate (Z.to_nat min_size)
                              (if policy_is_active ZeroBuffer s then Some 0 else None)))).
Proof.
  intros Hinv. pose proof Hinv as (Hinit & Hlive & Hsorted & Hrest).
  destruct (single_buffer_total min_size now s Hinv) as (a & s' & Hcall & Hinv').
  rewrite Bytes_single_buffer_unprotected_spec, Hcall. cbn [mbind option_bind].
  destruct (single_buffer_record _ _ _ _ _ Hinv Hcall)
    as [(Ha & Hlt & Hfit & Hrec)|(Ha & -> & Hrec)]; rewrite Ha.
  - exists a, s', m. split; [done|]. split; [done|]. left.
    destruct (find_free_found min_size s Hsorted a Ha) as [Hfree _].
    assert (a ∈ m_size_list s) as Hal by (by eapply list_elem_of_lookup_2).
    split; [by exists a|done].
  - eexists _, s', _. split; [done|]. split.
    + intros x Hx. by rewrite lookup_insert_ne.
    + right. split_and!; [|done|by rewrite lookup_insert_eq].
      intros x Hx. destruct (find_free_none min_size s Hsorted x Ha Hx); [by right|by left].
Qed.

Lemma ZeroBuffer_zeroes_fresh_blocks_only_witness :
  ∃ a s' m',
    Bytes.single_buffer_unprotected 50 9 example_pool {[0%nat := replicate 100 (Some 7)]}
    = Some (Some a, s', m')
    ∧ (∀ x, x ≠ a → m' !! x = ({[0%nat := replicate 100 (Some 7)]} : Bytes.Blocks) !! x)
    ∧ (((∃ x, x ∈ m_size_list example_pool
              ∧ m_in_use (deref (heap example_pool) x) = false
              ∧ 50 ≤ m_allocated (deref (heap example_pool) x))
        ∧ a ∈ m_size_list example_pool ∧ m' = {[0%nat := replicate 100 (Some 7)]})
       ∨ ((∀ x, x ∈ m_size_list example_pool →
             m_in_use (deref (heap example_pool) x) = true
             ∨ m_allocated (deref (heap example_pool) x) < 50)
          ∧ a = length (heap example_pool)
          ∧ m' !! a = Some (replicate (Z.to_nat 50)
                              (if policy_is_active ZeroBuffer example_pool
                               then Some 0 else None)))).
Proof.
  apply (ZeroBuffer_zeroes_fresh_blocks_only 50 9 example_pool
           {[0%nat := replicate 100 (Some 7)]}).
  apply (bool_decide_unpack _); vm_compute; reflexivity.
Defined.

(** X16.  [single_buffer_from(const std::string&)] stores the characters and
    the terminating 0: for a string of fewer than 2^32 - 1 characters the
    record returned has [size()] one more than the length of the string, and
    its block starts with the characters followed by a 0 byte. *)
Theorem single_buffer_from_string_stores_terminator str now s m :
  pool_inv s → Bytes.blocks_ok s m → Z.of_nat (length str) + 1 < 2 ^ 32 →
  ∃ a s' m',
    Bytes.Tracking.single_buffer_from_string str now s m = Some (Some a, s', m')
    ∧ Bytes.size (deref (heap s') a) = Z.of_nat (length str) + 1
    ∧ Bytes.contents m' a (S (length str)) = Some (Some <$> str ++ [0])
    ∧ (∀ x, x ≠ a → m' !! x = m !! x)
    ∧ pool_inv s' ∧ Bytes.blocks_ok s' m'.
Proof.
  intros Hinv Hblocks Hlen.
  assert (uint32_wrap (Z.of_nat (length str) + 1) = Z.of_nat (length str) + 1) as Hwrap.
  { unfold uint32_wrap. apply Z.mod_small. lia. }
  assert (Z.to_nat (Z.of_nat (length str) + 1) = S (length str)) as Hnat by lia.
  unfold Bytes.Tracking.single_buffer_from_string. rewrite Hwrap.
  destruct (Bytes_single_buffer_from_spec (str ++ [0]) (Z.of_nat (length str) + 1) now s m)
    as (a & s' & block & Hcall & Htrack & _ & Hblock & Hblen & Hbuf & Hused & Hsize
        & Hfit & Hinv' & Hframe); [done|done|lia| |].
  { rewrite length_app. simpl. lia. }
  assert (∀ x, x ≠ a →
            <[a := (Some <$> take (Z.to_nat (Z.of_nat (length str) + 1)) (str ++ [0]))
                   ++ drop (Z.to_nat (Z.of_nat (length str) + 1)) block]>
              (match m_size_list s !! find_free (Z.of_nat (length str) + 1) s with
               | Some _ => m
               | None => <[a := block]> m
               end) !! x = m !! x) as Hother.
  { intros x Hx. rewrite lookup_insert_ne by done.
    destruct (m_size_list s !! find_free (Z.of_nat (length str) + 1) s); [done|].
    by rewrite lookup_insert_ne. }
  eexists a, s', _. split_and!; [exact Htrack|done| |exact Hother|done|].
  - unfold Bytes.contents. rewrite lookup_insert_eq. simpl. f_equal. rewrite Hnat.
    rewrite (take_ge (str ++ [0])) by (rewrite length_app; simpl; lia).
    rewrite take_app_le by (rewrite length_fmap, length_app; simpl; lia).
    apply take_ge. rewrite length_fmap, length_app. simpl. lia.
  - apply (Bytes_blocks_ok_update s s' m _ a Hblocks Hframe Hother).
    right. split; [done|]. rewrite lookup_insert_eq. simpl. f_equal.
    rewrite length_app, length_fmap, length_take, length_drop, length_app. simpl. lia.
Qed.

Lemma single_buffer_from_string_stores_terminator_witness :
  ∃ a s' m',
    Bytes.Tracking.single_buffer_from_string [104; 105] 7 (initialize startup) ∅
    = Some (Some a, s', m')
    ∧ Bytes.size (deref (heap s') a) = Z.of_nat (length [104; 105]) + 1
    ∧ Bytes.contents m' a (S (length [104; 105])) = Some (Some <$> [104; 105] ++ [0])
    ∧ (∀ x, x ≠ a → m' !! x = (∅ : Bytes.Blocks) !! x)
    ∧ pool_inv s' ∧ Bytes.blocks_ok s' m'.
Proof.
  apply (single_buffer_from_string_stores_terminator [104; 105] 7 (initialize startup) ∅).
  - apply pool_inv_initialize_startup.
  - apply (bool_decide_unpack _); vm_compute; reflexivity.
  - vm_compute; reflexivity.
Defined.

(** X17.  [ro()] and [rw()] answer only while the record is in use.  For the
    handle an acquisition has returned both give the pointer that [data()]
    gives; once the handle has been released, with either release function,
    both fail their [assert], while [data()] still gives the same pointer and
    [size()] still the size that was asked for. *)
Theorem ro_rw_only_while_in_use s min_size now a s1 t :
  pool_inv s → single_buffer min_size now s = Some (Some a, s1) →
  ∃ s2,
    Plain.release_buffer (Some a) t s1 = Some (true, s2)
    ∧ Tracking.release_buffer (Some a) t s1 = Some (true, s2)
    ∧ Bytes.ro (deref (heap s1) a) = Some (Bytes.data (deref (heap s1) a))
    ∧ Bytes.rw (deref (heap s1) a) = Some (Bytes.data (deref (heap s1) a))
    ∧ Bytes.ro (deref (heap s2) a) = None
    ∧ Bytes.rw (deref (heap s2) a) = None
    ∧ Bytes.data (deref (heap s2) a) = Bytes.data (deref (heap s1) a)
    ∧ Bytes.size (deref (heap s2) a) = min_size.
Proof.
  intros Hinv Hcall.
  destruct (single_buffer_frame _ _ _ _ _ Hinv Hcall) as (_ & Hused & _).
  pose proof (deref_in_use_lookup _ _ Hused) as Hb.
  assert (m_data_size (deref (heap s1) a) = min_size) as Hsize.
  { by destruct (single_buffer_record _ _ _ _ _ Hinv Hcall)
      as [(_ & _ & _ & ->)|(_ & _ & ->)]. }
  assert (a < length (heap s1))%nat as Hlt by (by eapply lookup_lt_Some).
  eexists. split_and!.
  - simpl. rewrite Hb. reflexivity.
  - simpl. rewrite Hb. simpl. by rewrite Hused.
  - unfold Bytes.ro. by rewrite Hused.
  - unfold Bytes.rw. by rewrite Hused.
  - simpl. rewrite deref_insert by done. by rewrite decide_True.
  - simpl. rewrite deref_insert by done. by rewrite decide_True.
  - simpl. rewrite deref_insert by done. by rewrite decide_True.
  - simpl. rewrite deref_insert by done. by rewrite decide_True.
Qed.

Lemma ro_rw_only_while_in_use_witness :
  ∃ s2,
    Plain.release_buffer (Some 0%nat) 5 (reuse 50 0 example_pool) = Some (true, s2)
    ∧ Tracking.release_buffer (Some 0%nat) 5 (reuse 50 0 example_pool) = Some (true, s2)
    ∧ Bytes.ro (deref (heap (reuse 50 0 example_pool)) 0)
      = Some (Bytes.data (deref (heap (reuse 50 0 example_pool)) 0))
    ∧ Bytes.rw (deref (heap (reuse 50 0 example_pool)) 0)
      = Some (Bytes.data (deref (heap (reuse 50 0 example_pool)) 0))
    ∧ Bytes.ro (deref (heap s2) 0) = None
    ∧ Bytes.rw (deref (heap s2) 0) = None
    ∧ Bytes.data (deref (heap s2) 0) = Bytes.data (deref (heap (reuse 50 0 example_pool)) 0)
    ∧ Bytes.size (deref (heap s2) 0) = 50.
Proof.
  apply (ro_rw_only_while_in_use example_pool 50 9 0 (reuse 50 0 example_pool) 5).
  - apply (bool_decide_unpack _); vm_compute; reflexivity.
  - vm_compute; reflexivity.
Defined.
